(** * Elite-Fire backend: the settlement and balance ledger of [server.js]

    A shallow embedding of the Express handlers of [src/server.js] that
    touch balances, matches and the transaction log, and the properties
    of the ledger proved (or refuted) on it.

    Modelling choices, all of them visible in the definitions below:
    - the four Mongoose collections are one record [DB]; [users] and
      [matches] are finite maps keyed by the document id, [transactions]
      and [notifications] are lists in insertion order;
    - a handler is a program of the small instruction set [Op]: one
      instruction per awaited store call of the handler.  A handler
      runs one instruction at a time ([step]); between two instructions
      other handlers may run ([interleave]), which is how Node schedules
      async handlers;
    - numbers are integers ([Z]); [Date.now()] is the field [now] of
      the store, advanced by the environment;
    - request bodies are typed: a field holds a value of the type its
      schema path names, an integer for a Number and a string for a
      String, or is missing where the record has an [option].  Bodies
      with update operators, and values that Mongoose cannot cast to the
      type of their path, are outside the model;
    - document ids are strings, and the handlers are given twice.
      [settle], [pay], [adjust] and [patch_user] are the handlers on ids
      that Mongoose casts to an ObjectId, where every store call
      resolves; the results on interleavings and on sequences of
      requests are stated on them.  [route_settle], [route_pay],
      [route_adjust], [route_patch_user] and [route_login] are the
      routes on every string: the cast comes first, and a rejected call
      ends the handler, through its [catch] (400 "Update failed",
      "Adjustment failed", "Payment failed") or, where the handler has
      no [try], without an answer ([unhandled]).  On ids that are cast
      the two agree ([run_route_settle_cast], [run_route_adjust_cast],
      [run_route_pay_cast], [route_patch_user_cast]);
    - a handler that is cut short is a prefix of its awaited calls
      ([run_steps]). *)

From Stdlib Require Import ZArith Lia.
From stdpp Require Import gmap strings list fin_maps sorting pretty.

Open Scope string_scope.
Open Scope list_scope.
Open Scope Z_scope.

(** ** Schemas *)

(** [UserSchema]. *)
Module User.
Record t := mk {
  username : string;
  email : string;
  pin : string;
  role : string;
  balance : Z;
  isBlocked : bool;
  isDeleted : bool;
  canCreateMatch : bool;
  totalMatchesPaid : Z;
  createdAt : Z
}.

(** The body of [PATCH /api/users/:id]: any subset of the fields. *)
Record patch := mkPatch {
  p_username : option string;
  p_email : option string;
  p_pin : option string;
  p_role : option string;
  p_balance : option Z;
  p_isBlocked : option bool;
  p_isDeleted : option bool;
  p_canCreateMatch : option bool;
  p_totalMatchesPaid : option Z;
  p_createdAt : option Z
}.

Definition apply_patch (b : patch) (u : t) : t :=
  mk (default (username u) (p_username b))
     (default (email u) (p_email b))
     (default (pin u) (p_pin b))
     (default (role u) (p_role b))
     (default (balance u) (p_balance b))
     (default (isBlocked u) (p_isBlocked b))
     (default (isDeleted u) (p_isDeleted b))
     (default (canCreateMatch u) (p_canCreateMatch b))
     (default (totalMatchesPaid u) (p_totalMatchesPaid b))
     (default (createdAt u) (p_createdAt b)).

(** [{ $inc: { balance: amount } }] *)
Definition inc_balance (amount : Z) (u : t) : t :=
  mk (username u) (email u) (pin u) (role u) (balance u + amount)
     (isBlocked u) (isDeleted u) (canCreateMatch u)
     (totalMatchesPaid u) (createdAt u).

(** [{ $inc: { totalMatchesPaid: n } }] *)
Definition inc_totalMatchesPaid (n : Z) (u : t) : t :=
  mk (username u) (email u) (pin u) (role u) (balance u)
     (isBlocked u) (isDeleted u) (canCreateMatch u)
     (totalMatchesPaid u + n) (createdAt u).
End User.

(** An element of [teamA] / [teamB] in [MatchSchema]. *)
Module Player.
Record t := mk {
  userId : string;
  username : string;
  betAmount : Z;
  paid : bool
}.

(** [p.paid = true] *)
Definition set_paid (p : t) : t :=
  mk (userId p) (username p) (betAmount p) true.
End Player.

(** [MatchSchema]. [winningTeam] has no default: it is [None] until set. *)
Module Match.
Record t := mk {
  name : string;
  teamA : list Player.t;
  teamB : list Player.t;
  winningTeam : option string;
  status : string;
  createdAt : Z
}.

(** The body of [POST /api/matches]; [new Match(req.body)] takes every
    schema field the body carries and the defaults for the others. *)
Record body := mkBody {
  b_name : string;
  b_teamA : list Player.t;
  b_teamB : list Player.t;
  b_winningTeam : option string;
  b_status : option string;
  b_createdAt : option Z
}.

Definition of_body (now : Z) (b : body) : t :=
  mk (b_name b) (b_teamA b) (b_teamB b) (b_winningTeam b)
     (default "UNDECIDED" (b_status b))
     (default now (b_createdAt b)).

(** [match.status = 'SETTLED'; match.winningTeam = winningTeam] *)
Definition set_settled (w : option string) (m : t) : t :=
  mk (name m) (teamA m) (teamB m) w "SETTLED" (createdAt m).

(** The paths [teamA.i.paid] and [teamB.j.paid] set to [true]. *)
Definition set_paid (ia ib : option nat) (m : t) : t :=
  mk (name m)
     (from_option (λ i, alter Player.set_paid i (teamA m)) (teamA m) ia)
     (from_option (λ j, alter Player.set_paid j (teamB m)) (teamB m) ib)
     (winningTeam m) (status m) (createdAt m).
End Match.

(** [TransactionSchema]. *)
Module Transaction.
Record t := mk {
  userId : string;
  amount : Z;
  type : string;
  description : string;
  timestamp : Z
}.
End Transaction.

(** [NotificationSchema]. *)
Module Notification.
Record t := mk {
  userId : string;
  message : string;
  timestamp : Z;
  isRead : bool
}.
End Notification.

(** ** The store *)

Record DB := mkDB {
  users : gmap string User.t;
  matches : gmap string Match.t;
  transactions : list Transaction.t;
  notifications : list Notification.t;
  now : Z
}.

Definition with_users (f : gmap string User.t → gmap string User.t) (db : DB) : DB :=
  mkDB (f (users db)) (matches db) (transactions db) (notifications db) (now db).

Definition with_matches (f : gmap string Match.t → gmap string Match.t) (db : DB) : DB :=
  mkDB (users db) (f (matches db)) (transactions db) (notifications db) (now db).

Definition with_transactions (f : list Transaction.t → list Transaction.t) (db : DB) : DB :=
  mkDB (users db) (matches db) (f (transactions db)) (notifications db) (now db).

Definition with_notifications (f : list Notification.t → list Notification.t) (db : DB) : DB :=
  mkDB (users db) (matches db) (transactions db) (f (notifications db)) (now db).

(** The environment lets [d] milliseconds pass. *)
Definition tick (d : nat) (db : DB) : DB :=
  mkDB (users db) (matches db) (transactions db) (notifications db)
       (now db + Z.of_nat d).

(** ** Store calls *)

(** The update document of [User.findByIdAndUpdate]. *)
Inductive Update :=
| Set_ (b : User.patch)
| IncBalance (amount : Z)
| IncTotalMatchesPaid (n : Z).

Definition apply_update (upd : Update) : User.t → User.t :=
  match upd with
  | Set_ b => User.apply_patch b
  | IncBalance a => User.inc_balance a
  | IncTotalMatchesPaid n => User.inc_totalMatchesPaid n
  end.

(** What [match.save()] writes: Mongoose sends the modified paths only. *)
Inductive Modified :=
| StatusAndWinner (winningTeam : option string)
| PaidFlags (ia ib : option nat).

Definition apply_modified (d : Modified) : Match.t → Match.t :=
  match d with
  | StatusAndWinner w => Match.set_settled w
  | PaidFlags ia ib => Match.set_paid ia ib
  end.

(** [Transaction.find(filter)]: [None] is the empty filter. *)
Definition tx_matches (filter : option string) (t : Transaction.t) : bool :=
  match filter with
  | None => true
  | Some uid => bool_decide (Transaction.userId t = uid)
  end.

(** [timestamp: -1]: [t1] may come before [t2]. *)
Definition newer_first (t1 t2 : Transaction.t) : Prop :=
  Transaction.timestamp t2 ≤ Transaction.timestamp t1.

Global Instance newer_first_dec t1 t2 : Decision (newer_first t1 t2).
Proof. unfold newer_first. apply _. Defined.

(** [.sort({ timestamp: -1 })] *)
Definition sort_timestamp_desc (l : list Transaction.t) : list Transaction.t :=
  merge_sort newer_first l.

(** One awaited call on a model; the index is the type of its result.
    An [id] is one that Mongoose casts; the cast itself is part of the
    routes on every string.
    - [User_findByIdAndUpdate id upd new]: resolves to [null] and writes
      nothing when there is no such user; otherwise to the updated
      document with [{ new: true }] and to the previous one without;
    - [Match_insert id body]: [new Match(body).save()] with [id] as the
      [_id] of the new document; an [_id] in use is refused;
    - [Match_save id d]: [match.save()] on a loaded document;
    - [Transaction_save], [Notification_save]: [new Model({...}).save()],
      the timestamp being the default [Date.now];
    - [Transaction_find_sorted f]: [Transaction.find(f).sort({ timestamp: -1 })]. *)
Inductive Op : Type → Type :=
| User_findByIdAndUpdate (id : string) (upd : Update) (new : bool) : Op (option User.t)
| Match_findById (id : string) : Op (option Match.t)
| Match_insert (id : string) (m : Match.body) : Op (option Match.t)
| Match_save (id : string) (d : Modified) : Op unit
| Transaction_save (userId : string) (amount : Z) (type description : string) : Op unit
| Notification_save (userId message : string) : Op unit
| Transaction_find_sorted (filter : option string) : Op (list Transaction.t).

Definition exec_op {X} (op : Op X) (db : DB) : DB * X :=
  match op in Op X return DB * X with
  | User_findByIdAndUpdate id upd new =>
      match users db !! id with
      | Some u =>
          let u' := apply_update upd u in
          (with_users (insert id u') db, Some (if new then u' else u))
      | None => (db, None)
      end
  | Match_findById id => (db, matches db !! id)
  | Match_insert id b =>
      match matches db !! id with
      | Some _ => (db, None)
      | None =>
          let m := Match.of_body (now db) b in
          (with_matches (insert id m) db, Some m)
      end
  | Match_save id d => (with_matches (alter (apply_modified d) id) db, tt)
  | Transaction_save uid a ty desc =>
      (with_transactions (λ l, l ++ [Transaction.mk uid a ty desc (now db)]) db, tt)
  | Notification_save uid msg =>
      (with_notifications (λ l, l ++ [Notification.mk uid msg (now db) false]) db, tt)
  | Transaction_find_sorted f =>
      (db, sort_timestamp_desc (filter (λ t, tx_matches f t = true) (transactions db)))
  end.

(** ** Handlers as programs *)

Inductive Body :=
| NoBody
| JsonMessage (message : string)
| JsonUser (u : option User.t)
| JsonMatch (m : Match.t)
| JsonTransactions (l : list Transaction.t).

Record Response := mkResponse { code : Z; body : Body }.

(** The handler sends no response: a rejected promise in a handler
    without [try].  What the client sees is left to Express. *)
Definition unhandled : Response := mkResponse 0 NoBody.

Inductive Prog (R : Type) : Type :=
| Ret (r : R)
| Vis {X : Type} (op : Op X) (k : X → Prog R).
Arguments Ret {R} r.
Arguments Vis {R X} op k.

Notation "'await' x ':=' op 'in' k" := (Vis op (λ x, k))
  (at level 10, x name, op at level 100, k at level 200,
   format "'[v' 'await'  x  ':='  op  'in' '/' k ']'").

(** One awaited call. *)
Definition step {R} (p : Prog R) (db : DB) : DB * Prog R :=
  match p with
  | Ret r => (db, Ret r)
  | Vis op k => let '(db', x) := exec_op op db in (db', k x)
  end.


(** The whole handler, with no other handler in between. *)
Fixpoint run {R} (p : Prog R) (db : DB) : DB * R :=
  match p with
  | Ret r => (db, r)
  | Vis op k => let '(db', x) := exec_op op db in run (k x) db'
  end.

Definition finished {R} (p : Prog R) : option R :=
  match p with
  | Ret r => Some r
  | Vis _ _ => None
  end.

(** ** The routes

    The handlers on ids that are cast to ObjectIds.  The routes on every
    string, with the cast and the [catch] branches, follow further
    down. *)

(** [PATCH /api/users/:id] *)
Definition patch_user (id : string) (body : User.patch) : Prog Response :=
  await user := User_findByIdAndUpdate id (Set_ body) true in
  Ret (mkResponse 200 (JsonUser user)).

(** [`System Adjustment: ${amount >= 0 ? '+' : ''}${amount} credits (${description})`] *)
Definition adjust_message (amount : Z) (description : string) : string :=
  "System Adjustment: " +:+ (if bool_decide (0 ≤ amount) then "+" else "")
    +:+ pretty amount +:+ " credits (" +:+ description +:+ ")".

(** [POST /api/users/:userId/adjust] *)
Definition adjust (userId : string) (amount : Z) (description : string)
  : Prog Response :=
  await user := User_findByIdAndUpdate userId (IncBalance amount) true in
  match user with
  | Some u =>
      await _ := Transaction_save userId amount "ADMIN_ADJUST" description in
      await _ := Notification_save userId (adjust_message amount description) in
      Ret (mkResponse 200 (JsonUser (Some u)))
  | None => Ret (mkResponse 404 (JsonMessage "User not found"))
  end.

(** [POST /api/matches]; [id] is the [_id] of the new document.  The
    handler has no [try]: when the store rejects the insert, nothing is
    sent. *)
Definition create_match (id : string) (body : Match.body) : Prog Response :=
  await saved := Match_insert id body in
  match saved with
  | Some m => Ret (mkResponse 200 (JsonMatch m))
  | None => Ret unhandled
  end.

(** [for (const p of winners) { ... }], followed by [k]. *)
Fixpoint pay_winners {R} (name : string) (winners : list Player.t) (k : Prog R)
  : Prog R :=
  match winners with
  | [] => k
  | p :: rest =>
      await _ := User_findByIdAndUpdate (Player.userId p)
                   (IncBalance (Player.betAmount p)) false in
      await _ := Transaction_save (Player.userId p) (Player.betAmount p)
                   "WIN" ("Victory: " +:+ name) in
      pay_winners name rest k
  end.

(** [for (const p of losers) { ... }], followed by [k]. *)
Fixpoint charge_losers {R} (name : string) (losers : list Player.t) (k : Prog R)
  : Prog R :=
  match losers with
  | [] => k
  | p :: rest =>
      await _ := User_findByIdAndUpdate (Player.userId p)
                   (IncBalance (- Player.betAmount p)) false in
      await _ := Transaction_save (Player.userId p) (- Player.betAmount p)
                   "LOSS" ("Defeat: " +:+ name) in
      charge_losers name rest k
  end.

(** [winningTeam === 'A' ? match.teamA : match.teamB] *)
Definition winners_of (winningTeam : option string) (m : Match.t) : list Player.t :=
  if decide (winningTeam = Some "A") then Match.teamA m else Match.teamB m.

(** [winningTeam === 'A' ? match.teamB : match.teamA] *)
Definition losers_of (winningTeam : option string) (m : Match.t) : list Player.t :=
  if decide (winningTeam = Some "A") then Match.teamB m else Match.teamA m.

(** [PATCH /api/matches/:id/settle]; [winningTeam] is [None] when the
    body has no such field. *)
Definition settle (id : string) (winningTeam : option string) : Prog Response :=
  await found := Match_findById id in
  match found with
  | None => Ret (mkResponse 400 NoBody)
  | Some match_ =>
      if decide (Match.status match_ = "SETTLED") then Ret (mkResponse 400 NoBody)
      else
        await _ := Match_save id (StatusAndWinner winningTeam) in
        pay_winners (Match.name match_) (winners_of winningTeam match_)
          (charge_losers (Match.name match_) (losers_of winningTeam match_)
             (Ret (mkResponse 200 (JsonMatch (Match.set_settled winningTeam match_)))))
  end.

(** [team.find(player => player.userId === userId)], with the index. *)
Definition find_player (userId : string) (team : list Player.t)
  : option (nat * Player.t) :=
  list_find (λ player, Player.userId player = userId) team.

(** [POST /api/matches/:id/pay/:userId] *)
Definition pay (id userId : string) : Prog Response :=
  await loaded := Match_findById id in
  match loaded with
  | None => Ret (mkResponse 404 (JsonMessage "Match not found"))
  | Some match_ =>
      let ia := fst <$> find_player userId (Match.teamA match_) in
      let ib := fst <$> find_player userId (Match.teamB match_) in
      let found := match ia, ib with None, None => false | _, _ => true end in
      if found then
        await _ := Match_save id (PaidFlags ia ib) in
        await _ := User_findByIdAndUpdate userId (IncTotalMatchesPaid 1) false in
        Ret (mkResponse 200 (JsonMatch (Match.set_paid ia ib match_)))
      else Ret (mkResponse 404 (JsonMessage "Player not found in match"))
  end.

(** [GET /api/transactions] *)
Definition list_transactions : Prog Response :=
  await txs := Transaction_find_sorted None in
  Ret (mkResponse 200 (JsonTransactions txs)).

(** [GET /api/transactions/:userId] *)
Definition list_user_transactions (userId : string) : Prog Response :=
  await txs := Transaction_find_sorted (Some userId) in
  Ret (mkResponse 200 (JsonTransactions txs)).

(** ** Requests, one after the other and interleaved *)

Inductive Request :=
| PatchUser (id : string) (body : User.patch)
| Adjust (userId : string) (amount : Z) (description : string)
| CreateMatch (id : string) (body : Match.body)
| Settle (id : string) (winningTeam : option string)
| Pay (id userId : string)
| ListTransactions
| ListUserTransactions (userId : string).

Definition handler (r : Request) : Prog Response :=
  match r with
  | PatchUser id b => patch_user id b
  | Adjust uid a d => adjust uid a d
  | CreateMatch id b => create_match id b
  | Settle id w => settle id w
  | Pay id uid => pay id uid
  | ListTransactions => list_transactions
  | ListUserTransactions uid => list_user_transactions uid
  end.

(** A request served on its own. *)
Definition serve (r : Request) (db : DB) : DB * Response := run (handler r) db.

(** Requests served one after the other; the responses are dropped. *)
Definition serve_all (rs : list Request) (db : DB) : DB :=
  fold_left (λ d r, fst (serve r d)) rs db.

(** The handlers in flight and the store they share. *)
Definition World : Type := DB * list (Prog Response).

Inductive Event :=
| Turn (i : nat)      (* handler [i] performs its next awaited call *)
| Elapse (d : nat).   (* [d] milliseconds pass *)

Definition world_step (e : Event) (w : World) : World :=
  match e with
  | Turn i =>
      match w.2 !! i with
      | Some p => let '(db', p') := step p w.1 in (db', <[i:=p']> w.2)
      | None => w
      end
  | Elapse d => (tick d w.1, w.2)
  end.

Definition interleave (es : list Event) (w : World) : World :=
  fold_left (λ w e, world_step e w) es w.

(** ** What the two loops of [settle] do *)

(** One iteration of either loop: a balance delta and its ledger entry. *)
Record Movement := mkMovement {
  mv_userId : string;
  mv_amount : Z;
  mv_type : string;
  mv_description : string
}.

Definition win_of (name : string) (p : Player.t) : Movement :=
  mkMovement (Player.userId p) (Player.betAmount p) "WIN" ("Victory: " +:+ name).

Definition loss_of (name : string) (p : Player.t) : Movement :=
  mkMovement (Player.userId p) (- Player.betAmount p) "LOSS" ("Defeat: " +:+ name).

(** The iterations of [settle] in the order the handler performs them. *)
Definition movements (winningTeam : option string) (m : Match.t) : list Movement :=
  map (win_of (Match.name m)) (winners_of winningTeam m)
  ++ map (loss_of (Match.name m)) (losers_of winningTeam m).

Fixpoint perform {R} (movs : list Movement) (k : Prog R) : Prog R :=
  match movs with
  | [] => k
  | mv :: rest =>
      await _ := User_findByIdAndUpdate (mv_userId mv) (IncBalance (mv_amount mv)) false in
      await _ := Transaction_save (mv_userId mv) (mv_amount mv) (mv_type mv)
                   (mv_description mv) in
      perform rest k
  end.

Definition ledger_entry (t : Z) (mv : Movement) : Transaction.t :=
  Transaction.mk (mv_userId mv) (mv_amount mv) (mv_type mv) (mv_description mv) t.

Definition apply_movement (db : DB) (mv : Movement) : DB :=
  with_transactions (λ l, l ++ [ledger_entry (now db) mv])
    (with_users (alter (User.inc_balance (mv_amount mv)) (mv_userId mv)) db).

Definition apply_movements (movs : list Movement) (db : DB) : DB :=
  fold_left apply_movement movs db.

(** The sum of [val x] over the elements of [l] that belong to [uid]. *)
Fixpoint sum_for {A} (key : A → string) (val : A → Z) (uid : string) (l : list A) : Z :=
  match l with
  | [] => 0
  | x :: rest =>
      if decide (key x = uid) then val x + sum_for key val uid rest
      else sum_for key val uid rest
  end.

(** The stakes of [uid] in a roster. *)
Definition stake_total : string → list Player.t → Z :=
  sum_for Player.userId Player.betAmount.


Definition net_movement : string → list Movement → Z :=
  sum_for mv_userId mv_amount.


(** The store once [settle] has saved the match and finished both loops. *)
Definition settled_db (id : string) (w : option string) (m : Match.t) (db : DB) : DB :=
  apply_movements (movements w m)
    (with_matches (alter (Match.set_settled w) id) db).

(** ** The two sides of a match, as the specification names them *)





Definition win_entry (m : Match.t) (t : Z) (p : Player.t) : Transaction.t :=
  Transaction.mk (Player.userId p) (Player.betAmount p) "WIN"
    ("Victory: " +:+ Match.name m) t.

Definition loss_entry (m : Match.t) (t : Z) (p : Player.t) : Transaction.t :=
  Transaction.mk (Player.userId p) (- Player.betAmount p) "LOSS"
    ("Defeat: " +:+ Match.name m) t.

(** What a settlement with [winners] and [losers] leaves behind: the
    match is SETTLED with the winner stored, the ledger has grown by one
    WIN entry per winner and one LOSS entry per loser, and every account
    has moved by the stakes of its entries. *)
Definition paid_out (id : string) (w : option string) (m : Match.t)
    (winners losers : list Player.t) (db db' : DB) : Prop :=
  (∃ m', matches db' !! id = Some m'
         ∧ Match.status m' = "SETTLED" ∧ Match.winningTeam m' = w
         ∧ Match.teamA m' = Match.teamA m ∧ Match.teamB m' = Match.teamB m)
  ∧ transactions db'
    = transactions db ++ map (win_entry m (now db)) winners
                      ++ map (loss_entry m (now db)) losers
  ∧ ∀ uid, users db' !! uid
           = User.inc_balance (stake_total uid winners - stake_total uid losers)
               <$> users db !! uid.

(** ** Invariants of matches *)

(** The stored match [id] is SETTLED. *)
Definition is_settled (db : DB) (id : string) : Prop :=
  ∃ m, matches db !! id = Some m ∧ Match.status m = "SETTLED".

(** [winningTeam] is set exactly when the match is SETTLED. *)
Definition winner_iff_settled (db : DB) : Prop :=
  ∀ id m, matches db !! id = Some m →
    is_Some (Match.winningTeam m) ↔ Match.status m = "SETTLED".

(** A roster entry without its [paid] flag. *)
Definition stake (p : Player.t) : string * string * Z :=
  (Player.userId p, Player.username p, Player.betAmount p).

(** [m'] is [m] up to [paid] flags, status and winner; a SETTLED match
    keeps its status and winner too. *)
Definition same_stakes (m m' : Match.t) : Prop :=
  Match.name m' = Match.name m
  ∧ map stake (Match.teamA m') = map stake (Match.teamA m)
  ∧ map stake (Match.teamB m') = map stake (Match.teamB m)
  ∧ (Match.status m = "SETTLED" →
     Match.status m' = "SETTLED" ∧ Match.winningTeam m' = Match.winningTeam m).

Definition stakes_preserved (db db' : DB) : Prop :=
  ∀ id m, matches db !! id = Some m →
    ∃ m', matches db' !! id = Some m' ∧ same_stakes m m'.

(** The request names a winner where it marks a match SETTLED. *)
Definition names_winner (r : Request) : Prop :=
  match r with
  | CreateMatch _ b =>
      is_Some (Match.b_winningTeam b)
      ↔ default "UNDECIDED" (Match.b_status b) = "SETTLED"
  | Settle _ w => is_Some w
  | _ => True
  end.


(** ** The scenario of the specification *)

Definition player (n : string) : User.t :=
  User.mk n (n +:+ "@grid") "0000" "PLAYER" 0 false false false 0 0.

Definition alpha_vs_beta : Match.t :=
  Match.mk "Alpha vs Beta"
    [Player.mk "p1" "one" 100 false] [Player.mk "p2" "two" 100 false]
    None "UNDECIDED" 1000.

Definition db_alpha : DB :=
  mkDB (<["p1" := player "one"]> (<["p2" := player "two"]> ∅))
       (<["m1" := alpha_vs_beta]> ∅) [] [] 1000.

(** ** Inputs used in the examples below *)

(** Two calls on the same match, in flight together. *)
Definition two_settles : World :=
  (db_alpha, [settle "m1" (Some "A"); settle "m1" (Some "A")]).

(** Both calls load the match before either saves it. *)
Definition race : list Event :=
  [Turn 0; Turn 1; Turn 0; Turn 1]
  ++ [Turn 0; Turn 0; Turn 0; Turn 0] ++ [Turn 1; Turn 1; Turn 1; Turn 1].


(** The indices [pay] computes, and whether it found the player. *)
Definition paid_index (uid : string) (team : list Player.t) : option nat :=
  fst <$> find_player uid team.

(** p1 is marked paid for "m1", and then once more. *)
Definition paid_once : DB := (serve (Pay "m1" "p1") db_alpha).1.

Definition paid_twice : DB := (serve (Pay "m1" "p1") paid_once).1.



(** A body with the rosters only. *)
Definition beta_rematch : Match.body :=
  Match.mkBody "Beta rematch" [Player.mk "p2" "two" 50 false]
    [Player.mk "p1" "one" 50 false] None None None.

(** Two matches created, paid and settled; the last call comes too late. *)
Definition match_day : list Request :=
  [CreateMatch "m2" beta_rematch; Pay "m1" "p1"; Settle "m1" (Some "A");
   Pay "m2" "p2"; Settle "m2" (Some "B"); Settle "m1" (Some "B")].

(** No field in the body: [winningTeam] is [undefined]. *)
Definition settle_empty_body : list Request :=
  [CreateMatch "m2" beta_rematch; Settle "m2" None].

(** The body of [POST /api/matches] names a winner for an open match. *)
Definition create_with_winner : list Request :=
  [CreateMatch "m3"
     (Match.mkBody "Gamma" [] [] (Some "A") None None)].

(** ** Totals *)

(** The amounts of a list of ledger entries, summed. *)
Definition ledger_total (l : list Transaction.t) : Z :=
  foldr (λ t acc, Transaction.amount t + acc) 0 l.

(** The stakes of a roster, summed. *)
Definition roster_total (l : list Player.t) : Z :=
  foldr (λ p acc, Player.betAmount p + acc) 0 l.



(** ** Vocabulary of the further properties of the ledger routes *)

Definition ledger_extends (a b : DB) : Prop :=
  transactions a `prefix_of` transactions b.

Definition same_accounts (a b : DB) : Prop := dom (users a) = dom (users b).

(** Two winners at 100 each against three losers at 50 each. *)
Definition uneven : Match.t :=
  Match.mk "Uneven"
    [Player.mk "cccccccccccccccccccccc01" "one" 100 false;
     Player.mk "cccccccccccccccccccccc02" "two" 100 false]
    [Player.mk "cccccccccccccccccccccc03" "three" 50 false;
     Player.mk "cccccccccccccccccccccc04" "four" 50 false;
     Player.mk "cccccccccccccccccccccc05" "five" 50 false]
    None "UNDECIDED" 1000.

Definition uneven_id : string := "dddddddddddddddddddddd09".

Definition db_uneven : DB := mkDB ∅ (<[uneven_id := uneven]> ∅) [] [] 1000.



(** ** The routes outside the ledger

    Login, registration, the listings and the read route.  Each of these
    handlers awaits one store call, so each is a single step on the
    store and is given as a function of the store.  An insert is
    refused, and the [catch] of the handler answers, when a required
    path is missing or a unique key is in use. *)

(** [required: true] on a String path: the value is there and is not
    the empty string. *)
Definition required (field : option string) : option string :=
  match field with
  | Some s => if decide (s = "") then None else Some s
  | None => None
  end.

(** [new User(req.body)]: the fields of the body and the defaults of
    [UserSchema] for the others; [None] when a required path fails. *)
Definition user_of_body (now : Z) (b : User.patch) : option User.t :=
  match required (User.p_username b), required (User.p_email b),
        required (User.p_pin b) with
  | Some n, Some e, Some p =>
      Some (User.mk n e p
              (default "PLAYER" (User.p_role b))
              (default 0 (User.p_balance b))
              (default false (User.p_isBlocked b))
              (default false (User.p_isDeleted b))
              (default false (User.p_canCreateMatch b))
              (default 0 (User.p_totalMatchesPaid b))
              (default now (User.p_createdAt b)))
  | _, _, _ => None
  end.

(** [unique: true]: some stored user already has [v] at [field]. *)
Definition taken (field : User.t → string) (v : string)
    (us : gmap string User.t) : Prop :=
  map_Exists (λ _ u, field u = v) us.

Global Instance taken_dec field v us : Decision (taken field v us).
Proof. unfold taken. apply _. Defined.

Definition identity_conflict : Response :=
  mkResponse 400
    (JsonMessage "Identity Conflict: Codename or Email already deployed.").

(** [POST /api/users]; [id] is the [_id] of the new document.  [save]
    is rejected when validation fails or a unique key is in use, and the
    [catch] answers 400. *)
Definition create_user (id : string) (body : User.patch) (db : DB)
  : DB * Response :=
  match user_of_body (now db) body with
  | None => (db, identity_conflict)
  | Some user =>
      if decide (is_Some (users db !! id)
                 ∨ taken User.username (User.username user) (users db)
                 ∨ taken User.email (User.email user) (users db))
      then (db, identity_conflict)
      else (with_users (insert id user) db, mkResponse 200 (JsonUser (Some user)))
  end.

(** The filter [{ email, pin, isDeleted: false }]. *)
Definition credentials (email pin : string) (u : User.t) : Prop :=
  User.email u = email ∧ User.pin u = pin ∧ User.isDeleted u = false.

Global Instance credentials_dec email pin u : Decision (credentials email pin u).
Proof. unfold credentials. apply _. Defined.

(** [User.findOne(filter)]: one of the users that pass the filter. *)
Definition find_one_user (P : User.t → Prop) `{!∀ u, Decision (P u)}
    (us : gmap string User.t) : option User.t :=
  (λ found, found.2.2) <$> list_find (λ iu, P iu.2) (map_to_list us).

(** [POST /api/login]; [toLowerCase] is [String.prototype.toLowerCase]. *)
Definition login (toLowerCase : string → string) (email pin : string) (db : DB)
  : Response :=
  match find_one_user (credentials (toLowerCase email) pin) (users db) with
  | None => mkResponse 401 (JsonMessage "Signal Mismatch: Invalid Credentials.")
  | Some user =>
      if User.isBlocked user
      then mkResponse 403 (JsonMessage "Operative blocked by High Command.")
      else mkResponse 200 (JsonUser (Some user))
  end.

(** [GET /api/users]: [User.find({ isDeleted: false })], with the ids. *)
Definition get_users (db : DB) : list (string * User.t) :=
  filter (λ iu, User.isDeleted iu.2 = false) (map_to_list (users db)).

(** [createdAt: -1] *)
Definition newer_match_first (a b : string * Match.t) : Prop :=
  Match.createdAt b.2 ≤ Match.createdAt a.2.

Global Instance newer_match_first_dec a b : Decision (newer_match_first a b).
Proof. unfold newer_match_first. apply _. Defined.

(** [GET /api/matches]: [Match.find().sort({ createdAt: -1 })]. *)
Definition get_matches (db : DB) : list (string * Match.t) :=
  merge_sort newer_match_first (map_to_list (matches db)).

Definition newer_notification_first (a b : Notification.t) : Prop :=
  Notification.timestamp b ≤ Notification.timestamp a.

Global Instance newer_notification_first_dec a b :
  Decision (newer_notification_first a b).
Proof. unfold newer_notification_first. apply _. Defined.

(** [GET /api/notifications/:userId] *)
Definition get_notifications (userId : string) (db : DB) : list Notification.t :=
  merge_sort newer_notification_first
    (filter (λ n, Notification.userId n = userId) (notifications db)).

(** [{ isRead: true }] on one notification. *)
Definition mark_read (n : Notification.t) : Notification.t :=
  Notification.mk (Notification.userId n) (Notification.message n)
    (Notification.timestamp n) true.

(** [POST /api/notifications/:userId/read]:
    [updateMany({ userId, isRead: false }, { isRead: true })]; the answer
    is always [{ success: true }]. *)
Definition read_notifications (userId : string) (db : DB) : DB :=
  with_notifications
    (map (λ n, if decide (Notification.userId n = userId
                          ∧ Notification.isRead n = false)
               then mark_read n else n))
    db.

(** Lower case for the letters A to Z, used where a concrete
    [toLowerCase] is needed. *)
Definition lower_ascii (c : Ascii.ascii) : Ascii.ascii :=
  let n := Ascii.nat_of_ascii c in
  if (65 <=? n)%nat && (n <=? 90)%nat then Ascii.ascii_of_nat (n + 32) else c.

Fixpoint ascii_lower (s : string) : string :=
  match s with
  | EmptyString => EmptyString
  | String c rest => String (lower_ascii c) (ascii_lower rest)
  end.

(** Three registered users: Ghost, Viper with a capital in the email,
    and Old, who is deleted. *)
Definition db_users : DB :=
  mkDB (<["u1" := User.mk "Ghost" "ghost@grid" "1234" "PLAYER" 0 false false false 0 0]>
        (<["u2" := User.mk "Viper" "Viper@grid" "9999" "PLAYER" 0 false false false 0 0]>
         (<["u3" := User.mk "Old" "old@grid" "0000" "PLAYER" 0 false true false 0 0]> ∅)))
       ∅ [] [] 2000.

(** The users may not share a username or an email. *)
Definition unique_identities (us : gmap string User.t) : Prop :=
  ∀ i j u v, us !! i = Some u → us !! j = Some v → i ≠ j →
    User.username u ≠ User.username v ∧ User.email u ≠ User.email v.

(** Viper registered as "Viper@grid". *)
Definition viper : User.t :=
  User.mk "Viper" "Viper@grid" "9999" "PLAYER" 0 false false false 0 0.

(** A required field that is absent or empty. *)
Definition blank (field : option string) : Prop :=
  field = None ∨ field = Some "".

(** A fresh id and email, but the username of the deleted user u3. *)
Definition old_again : User.patch :=
  User.mkPatch (Some "Old") (Some "new@grid") (Some "4321")
    None None None None None None None.

(** A registration that grants itself credits and the admin role. *)
Definition self_made : User.patch :=
  User.mkPatch (Some "Neo") (Some "neo@grid") (Some "1111")
    (Some "ADMIN") (Some 1000000) None None None None None.

Definition db_ghost : DB :=
  mkDB {["u1" := User.mk "Ghost" "ghost@grid" "1234" "PLAYER" 0 false false false 0 0]}
       ∅ [] [] 2000.

Definition trinity : User.patch :=
  User.mkPatch (Some "Trinity") (Some "trinity@grid") (Some "2222")
    None None None None None None None.

Definition trinity_user : User.t :=
  User.mk "Trinity" "trinity@grid" "2222" "PLAYER" 0 false false false 0 2000.

(** A notification without its [isRead] flag. *)
Definition envelope (n : Notification.t) : string * string * Z :=
  (Notification.userId n, Notification.message n, Notification.timestamp n).

(** [{ isDeleted: true }] *)
Definition soft_delete : User.patch :=
  User.mkPatch None None None None None None (Some true) None None None.

(** The store after [settle], in every case. *)
Definition settle_effect (id : string) (w : option string) (db : DB) : DB :=
  match matches db !! id with
  | Some m => if decide (Match.status m = "SETTLED") then db else settled_db id w m db
  | None => db
  end.

(** The store after [pay], in every case. *)
Definition pay_effect (id uid : string) (db : DB) : DB :=
  match matches db !! id with
  | Some m =>
      if decide (is_Some (find_player uid (Match.teamA m))
                 ∨ is_Some (find_player uid (Match.teamB m)))
      then with_users (alter (User.inc_totalMatchesPaid 1) uid)
             (with_matches
                (alter (Match.set_paid (paid_index uid (Match.teamA m))
                                       (paid_index uid (Match.teamB m))) id) db)
      else db
  | None => db
  end.

(** Whether [pay] finds the player, and what [settle] would move. *)
Definition pays (id uid : string) (db : DB) : bool :=
  match matches db !! id with
  | Some m => bool_decide (is_Some (find_player uid (Match.teamA m))
                           ∨ is_Some (find_player uid (Match.teamB m)))
  | None => false
  end.

Definition pending_movements (id : string) (w : option string) (db : DB)
  : list Movement :=
  match matches db !! id with
  | Some m => if decide (Match.status m = "SETTLED") then [] else movements w m
  | None => []
  end.

(** ** The routes with Mongoose's casts and the [catch] branches

    [User.findByIdAndUpdate] and [Match.findById] cast their first
    argument to an ObjectId and reject the call with a CastError when
    the string is none.  The handlers [settle], [pay], [adjust] and
    [patch_user] above are the routes on ids that are cast; the
    definitions below are the routes on every string: the cast comes
    first, and a rejected call ends the handler, through its [catch]
    where it has one and without an answer where it has none. *)

(** A hexadecimal digit. *)
Definition hex_digit (c : Ascii.ascii) : bool :=
  let n := Ascii.nat_of_ascii c in
  ((48 <=? n) && (n <=? 57) || (97 <=? n) && (n <=? 102)
   || (65 <=? n) && (n <=? 70))%nat.

Fixpoint all_hex (s : string) : bool :=
  match s with
  | EmptyString => true
  | String c rest => hex_digit c && all_hex rest
  end.

(** The strings that are cast to an ObjectId: 24 hexadecimal digits. *)
Definition object_id (s : string) : bool :=
  (String.length s =? 24)%nat && all_hex s.

(** [for (const p of winners) { ... }] with the cast of [p.userId];
    [settle] has no [try], so a rejected call leaves no answer. *)
Fixpoint route_pay_winners (name : string) (winners : list Player.t)
    (k : Prog Response) : Prog Response :=
  match winners with
  | [] => k
  | p :: rest =>
      if object_id (Player.userId p) then
        await _ := User_findByIdAndUpdate (Player.userId p)
                     (IncBalance (Player.betAmount p)) false in
        await _ := Transaction_save (Player.userId p) (Player.betAmount p)
                     "WIN" ("Victory: " +:+ name) in
        route_pay_winners name rest k
      else Ret unhandled
  end.

(** [for (const p of losers) { ... }] with the cast of [p.userId]. *)
Fixpoint route_charge_losers (name : string) (losers : list Player.t)
    (k : Prog Response) : Prog Response :=
  match losers with
  | [] => k
  | p :: rest =>
      if object_id (Player.userId p) then
        await _ := User_findByIdAndUpdate (Player.userId p)
                     (IncBalance (- Player.betAmount p)) false in
        await _ := Transaction_save (Player.userId p) (- Player.betAmount p)
                     "LOSS" ("Defeat: " +:+ name) in
        route_charge_losers name rest k
      else Ret unhandled
  end.

(** [PATCH /api/matches/:id/settle] on every string [id]. *)
Definition route_settle (id : string) (winningTeam : option string)
  : Prog Response :=
  if object_id id then
    await found := Match_findById id in
    match found with
    | None => Ret (mkResponse 400 NoBody)
    | Some match_ =>
        if decide (Match.status match_ = "SETTLED") then Ret (mkResponse 400 NoBody)
        else
          await _ := Match_save id (StatusAndWinner winningTeam) in
          route_pay_winners (Match.name match_) (winners_of winningTeam match_)
            (route_charge_losers (Match.name match_) (losers_of winningTeam match_)
               (Ret (mkResponse 200
                       (JsonMatch (Match.set_settled winningTeam match_)))))
    end
  else Ret unhandled.

Definition payment_failed : Response :=
  mkResponse 400 (JsonMessage "Payment failed").

(** [POST /api/matches/:id/pay/:userId] on every pair of strings. *)
Definition route_pay (id userId : string) : Prog Response :=
  if object_id id then
    await loaded := Match_findById id in
    match loaded with
    | None => Ret (mkResponse 404 (JsonMessage "Match not found"))
    | Some match_ =>
        let ia := fst <$> find_player userId (Match.teamA match_) in
        let ib := fst <$> find_player userId (Match.teamB match_) in
        let found := match ia, ib with None, None => false | _, _ => true end in
        if found then
          await _ := Match_save id (PaidFlags ia ib) in
          if object_id userId then
            await _ := User_findByIdAndUpdate userId (IncTotalMatchesPaid 1) false in
            Ret (mkResponse 200 (JsonMatch (Match.set_paid ia ib match_)))
          else Ret payment_failed
        else Ret (mkResponse 404 (JsonMessage "Player not found in match"))
    end
  else Ret payment_failed.

(** The template literal of the notification; [toString] is the
    conversion of a Number to a String. *)
Definition adjustment_text (toString : Z → string) (amount : Z)
    (description : string) : string :=
  "System Adjustment: " +:+ (if bool_decide (0 ≤ amount) then "+" else "")
    +:+ toString amount +:+ " credits (" +:+ description +:+ ")".

Definition adjustment_failed : Response :=
  mkResponse 400 (JsonMessage "Adjustment failed").

(** [POST /api/users/:userId/adjust] on every string [userId]. *)
Definition route_adjust (toString : Z → string) (userId : string) (amount : Z)
    (description : string) : Prog Response :=
  if object_id userId then
    await user := User_findByIdAndUpdate userId (IncBalance amount) true in
    match user with
    | Some u =>
        await _ := Transaction_save userId amount "ADMIN_ADJUST" description in
        await _ := Notification_save userId
                     (adjustment_text toString amount description) in
        Ret (mkResponse 200 (JsonUser (Some u)))
    | None => Ret (mkResponse 404 (JsonMessage "User not found"))
    end
  else Ret adjustment_failed.


Definition update_failed : Response :=
  mkResponse 400 (JsonMessage "Update failed").

(** The unique index on [field] refuses the value the body sets: a user
    other than [id] holds it. *)
Definition collides (field : User.t → string) (value : option string)
    (id : string) (us : gmap string User.t) : Prop :=
  match value with
  | Some v => taken field v (delete id us)
  | None => False
  end.

Global Instance collides_dec field value id us :
  Decision (collides field value id us).
Proof. unfold collides. destruct value; apply _. Defined.

(** [PATCH /api/users/:id] on every string [id], for a body of plain
    fields.  The handler awaits one store call, so it is one step on the
    store; the call is rejected, and the [catch] answers, when the id is
    no ObjectId or a unique index refuses the update. *)
Definition route_patch_user (id : string) (body : User.patch) (db : DB)
  : DB * Response :=
  if object_id id then
    match users db !! id with
    | None => (db, mkResponse 200 (JsonUser None))
    | Some u =>
        if decide (collides User.username (User.p_username body) id (users db)
                   ∨ collides User.email (User.p_email body) id (users db))
        then (db, update_failed)
        else (with_users (insert id (User.apply_patch body u)) db,
              mkResponse 200 (JsonUser (Some (User.apply_patch body u))))
    end
  else (db, update_failed).



(** [POST /api/login] on every body: [email] is [None] when the body
    has no string there, and [email.toLowerCase()] then throws in a
    handler without [try]. *)
Definition route_login (toLowerCase : string → string) (email : option string)
    (pin : string) (db : DB) : Response :=
  match email with
  | Some e => login toLowerCase e pin db
  | None => unhandled
  end.

(** ** What a settlement leaves behind, field by field *)


(** What a handler writes into a ledger entry; the timestamp is the
    default of the schema. *)
Definition entry (t : Transaction.t) : string * Z * string * string :=
  (Transaction.userId t, Transaction.amount t, Transaction.type t,
   Transaction.description t).



(** The user ids of both rosters are ObjectIds. *)
Definition roster_ids_cast (m : Match.t) : Prop :=
  Forall (λ p, object_id (Player.userId p) = true) (Match.teamA m ++ Match.teamB m).

(** ** A store whose ids are ObjectIds *)

Definition one_id : string := "aaaaaaaaaaaaaaaaaaaaaaa1".
Definition two_id : string := "aaaaaaaaaaaaaaaaaaaaaaa2".
Definition nobody_id : string := "aaaaaaaaaaaaaaaaaaaaaaa9".
Definition alpha_id : string := "bbbbbbbbbbbbbbbbbbbbbbb1".
Definition ghost_match_id : string := "bbbbbbbbbbbbbbbbbbbbbbb2".
Definition stray_match_id : string := "bbbbbbbbbbbbbbbbbbbbbbb3".

(** The scenario of the specification with ObjectIds. *)
Definition alpha_match : Match.t :=
  Match.mk "Alpha vs Beta"
    [Player.mk one_id "one" 100 false] [Player.mk two_id "two" 100 false]
    None "UNDECIDED" 1000.

(** Team A is a player who has no account. *)
Definition ghost_match : Match.t :=
  Match.mk "Ghost vs Beta"
    [Player.mk nobody_id "nobody" 100 false] [Player.mk two_id "two" 100 false]
    None "UNDECIDED" 1000.

(** Team B is a player whose [userId] is no ObjectId. *)
Definition stray_match : Match.t :=
  Match.mk "Alpha vs Stray"
    [Player.mk one_id "one" 100 false] [Player.mk "p9" "stray" 100 false]
    None "UNDECIDED" 1000.

Definition db_grid : DB :=
  mkDB (<[one_id := player "one"]> (<[two_id := player "two"]> ∅))
       (<[alpha_id := alpha_match]>
          (<[ghost_match_id := ghost_match]>
             (<[stray_match_id := stray_match]> ∅)))
       [] [] 1000.

(** ** The loops of the settle route, as movements *)

(** [perform] with the cast of each [userId]. *)
Fixpoint route_perform (movs : list Movement) (k : Prog Response) : Prog Response :=
  match movs with
  | [] => k
  | mv :: rest =>
      if object_id (mv_userId mv) then
        await _ := User_findByIdAndUpdate (mv_userId mv) (IncBalance (mv_amount mv)) false in
        await _ := Transaction_save (mv_userId mv) (mv_amount mv) (mv_type mv)
                     (mv_description mv) in
        route_perform rest k
      else Ret unhandled
  end.

(** The movements before the first [userId] that is no ObjectId. *)
Fixpoint cast_prefix (movs : list Movement) : list Movement :=
  match movs with
  | [] => []
  | mv :: rest => if object_id (mv_userId mv) then mv :: cast_prefix rest else []
  end.

(** Every [userId] is an ObjectId. *)
Definition all_cast (movs : list Movement) : bool :=
  forallb (λ mv, object_id (mv_userId mv)) movs.


(** ** Adjustments in flight together *)











(** ** Lemmas on the store calls *)

Lemma findByIdAndUpdate_db id upd new db :
  (exec_op (User_findByIdAndUpdate id upd new) db).1
  = with_users (alter (apply_update upd) id) db.
Proof.
  destruct db as [us ms ts ns t]. cbn.
  destruct (us !! id) as [u|] eqn:E; cbn; unfold with_users; cbn; f_equal.
  - apply map_eq. intros j. rewrite lookup_insert, lookup_alter.
    case_decide; subst; [by rewrite E | done].
  - apply map_eq. intros j. rewrite lookup_alter.
    case_decide; subst; [by rewrite E | done].
Qed.

Lemma inc_balance_0 u : User.inc_balance 0 u = u.
Proof. destruct u. unfold User.inc_balance. cbn. f_equal. lia. Qed.

Lemma inc_balance_inc_balance a b u :
  User.inc_balance b (User.inc_balance a u) = User.inc_balance (a + b) u.
Proof. unfold User.inc_balance. cbn. f_equal. lia. Qed.

Lemma sum_for_app {A} (key : A → string) val uid (l1 l2 : list A) :
  sum_for key val uid (l1 ++ l2) = sum_for key val uid l1 + sum_for key val uid l2.
Proof.
  induction l1 as [|x l1 IH]; cbn; [done|].
  rewrite IH. case_decide; lia.
Qed.

(** ** Lemmas on the loops *)

Lemma pay_winners_perform {R} name ps (k : Prog R) :
  pay_winners name ps k = perform (map (win_of name) ps) k.
Proof. induction ps as [|p ps IH]; cbn; [done|]. by rewrite IH. Qed.

Lemma charge_losers_perform {R} name ps (k : Prog R) :
  charge_losers name ps k = perform (map (loss_of name) ps) k.
Proof. induction ps as [|p ps IH]; cbn; [done|]. by rewrite IH. Qed.





Lemma run_perform {R} movs (k : Prog R) db :
  run (perform movs k) db = run k (apply_movements movs db).
Proof.
  revert db. induction movs as [|mv rest IH]; intros db; [done|].
  cbn [perform run].
  destruct (exec_op (User_findByIdAndUpdate _ _ _) db) as [db1 x] eqn:E.
  pose proof (findByIdAndUpdate_db (mv_userId mv) (IncBalance (mv_amount mv)) false db) as H.
  rewrite E in H. cbn in H. subst db1. cbn. rewrite IH. reflexivity.
Qed.

(** The store after a list of movements, field by field. *)
Lemma apply_movements_matches movs db :
  matches (apply_movements movs db) = matches db.
Proof. revert db. induction movs as [|mv l IH]; intros db; cbn; [done|]. by rewrite IH. Qed.

Lemma apply_movements_notifications movs db :
  notifications (apply_movements movs db) = notifications db.
Proof. revert db. induction movs as [|mv l IH]; intros db; cbn; [done|]. by rewrite IH. Qed.

Lemma apply_movements_now movs db :
  now (apply_movements movs db) = now db.
Proof. revert db. induction movs as [|mv l IH]; intros db; cbn; [done|]. by rewrite IH. Qed.

Lemma apply_movements_transactions movs db :
  transactions (apply_movements movs db)
  = transactions db ++ map (ledger_entry (now db)) movs.
Proof.
  revert db. induction movs as [|mv l IH]; intros db; cbn.
  - by rewrite app_nil_r.
  - rewrite IH. cbn. by rewrite <- app_assoc.
Qed.

Lemma apply_movements_users movs db uid :
  users (apply_movements movs db) !! uid
  = User.inc_balance (net_movement uid movs) <$> users db !! uid.
Proof.
  revert db. induction movs as [|mv l IH]; intros db; cbn.
  - destruct (users db !! uid); cbn; [by rewrite inc_balance_0 | done].
  - rewrite IH. cbn. rewrite lookup_alter. unfold net_movement. cbn.
    case_decide as E; [subst uid|done].
    destruct (users db !! mv_userId mv); cbn; [|done].
    by rewrite inc_balance_inc_balance.
Qed.

(** ** The handlers, run to completion *)


Lemma serve_settle_ok id w m db :
  matches db !! id = Some m → Match.status m ≠ "SETTLED" →
  serve (Settle id w) db
  = (settled_db id w m db, mkResponse 200 (JsonMatch (Match.set_settled w m))).
Proof.
  intros Hm Hs. unfold serve, handler, settle, settled_db, movements. cbn.
  rewrite Hm. destruct (decide (Match.status m = "SETTLED")) as [|_]; [done|].
  cbn. rewrite pay_winners_perform, charge_losers_perform, !run_perform.
  unfold apply_movements. by rewrite fold_left_app.
Qed.

Lemma step_settle_settled id w m db :
  matches db !! id = Some m → Match.status m = "SETTLED" →
  step (settle id w) db = (db, Ret (mkResponse 400 NoBody)).
Proof.
  intros Hm Hs. unfold settle. cbn. rewrite Hm.
  by destruct (decide (Match.status m = "SETTLED")).
Qed.

Lemma serve_settle_settled id w m db :
  matches db !! id = Some m → Match.status m = "SETTLED" →
  serve (Settle id w) db = (db, mkResponse 400 NoBody).
Proof.
  intros Hm Hs. unfold serve, handler, settle. cbn. rewrite Hm.
  by destruct (decide (Match.status m = "SETTLED")).
Qed.

Lemma serve_settle_absent id w db :
  matches db !! id = None →
  serve (Settle id w) db = (db, mkResponse 400 NoBody).
Proof. intros Hm. unfold serve, handler, settle. cbn. by rewrite Hm. Qed.

Lemma settled_db_match id w m db :
  matches db !! id = Some m →
  matches (settled_db id w m db) !! id = Some (Match.set_settled w m).
Proof.
  intros Hm. unfold settled_db. rewrite apply_movements_matches. cbn.
  by rewrite lookup_alter_eq, Hm.
Qed.

Lemma net_movement_wins name uid ps :
  net_movement uid (map (win_of name) ps) = stake_total uid ps.
Proof. induction ps as [|p ps IH]; cbn; [done|]. by rewrite IH. Qed.

Lemma net_movement_losses name uid ps :
  net_movement uid (map (loss_of name) ps) = - stake_total uid ps.
Proof.
  induction ps as [|p ps IH]; cbn; [done|]. rewrite IH.
  unfold stake_total. cbn. case_decide; lia.
Qed.

Lemma settled_db_paid_out id w m db :
  matches db !! id = Some m →
  paid_out id w m (winners_of w m) (losers_of w m) db (settled_db id w m db).
Proof.
  intros Hm. split; [|split].
  - exists (Match.set_settled w m). by rewrite settled_db_match.
  - unfold settled_db. rewrite apply_movements_transactions. cbn.
    unfold movements. rewrite map_app, !map_map. reflexivity.
  - intros uid. unfold settled_db. rewrite apply_movements_users. cbn.
    unfold movements, net_movement. rewrite sum_for_app.
    fold (net_movement uid (map (win_of (Match.name m)) (winners_of w m))).
    fold (net_movement uid (map (loss_of (Match.name m)) (losers_of w m))).
    rewrite net_movement_wins, net_movement_losses.
    by replace (stake_total uid (winners_of w m) + - stake_total uid (losers_of w m))
      with (stake_total uid (winners_of w m) - stake_total uid (losers_of w m)) by lia.
Qed.

(** ** Settlement *)


Lemma exec_op_settled {X} (op : Op X) db id :
  is_settled db id → is_settled (exec_op op db).1 id.
Proof.
  intros (m & Hm & Hs). unfold is_settled.
  destruct op as [i upd new|i|i b|i d|????|??|?]; cbn [exec_op].
  - destruct (users db !! i); by exists m.
  - by exists m.
  - destruct (matches db !! i) eqn:E; cbn [fst with_matches matches]; [by exists m|].
    exists m. rewrite lookup_insert_ne by congruence. done.
  - cbn [fst with_matches matches]. rewrite lookup_alter. case_decide; [subst i|by exists m].
    rewrite Hm. cbn. eexists. split; [done|]. by destruct d.
  - by exists m.
  - by exists m.
  - by exists m.
Qed.

Lemma world_step_settled e (w : World) id :
  is_settled w.1 id → is_settled (world_step e w).1 id.
Proof.
  intros H. destruct w as [db pool]. destruct e as [i|d]; cbn in *.
  - destruct (pool !! i) as [p|]; [|done].
    destruct p as [r|X op k]; cbn; [done|].
    pose proof (exec_op_settled op db id H) as H'.
    by destruct (exec_op op db).
  - done.
Qed.

Lemma world_step_waiting e (w : World) i p :
  e ≠ Turn i → w.2 !! i = Some p → (world_step e w).2 !! i = Some p.
Proof.
  intros He Hp. destruct w as [db pool]. destruct e as [j|d]; cbn in *; [|done].
  destruct (pool !! j) as [q|]; [|done].
  destruct (step q db) as [db' q']. cbn.
  rewrite list_lookup_insert_ne by congruence. done.
Qed.

Lemma interleave_waiting es (w : World) id i p :
  Forall (λ e, e ≠ Turn i) es →
  is_settled w.1 id → w.2 !! i = Some p →
  is_settled (interleave es w).1 id ∧ (interleave es w).2 !! i = Some p.
Proof.
  intros Hes. revert w. induction Hes as [|e es He _ IH]; intros w Hs Hp; [done|].
  cbn. apply IH; [by apply world_step_settled | by apply world_step_waiting].
Qed.

(** C1. A call to [settle] on a match that is SETTLED in the store
    answers 400 with an empty body and leaves users, matches, ledger and
    notifications as they were.  The same holds with other handlers in
    flight: whatever they do between the moment the match is SETTLED and
    the first awaited call of this [settle], that first call ends it with
    400 and writes nothing. *)
Theorem settle_settled_rejected (db : DB) (id : string) (w : option string)
    (m : Match.t) :
  matches db !! id = Some m →
  Match.status m = "SETTLED" →
  serve (Settle id w) db = (db, mkResponse 400 NoBody)
  ∧ ∀ (pool : list (Prog Response)) (i : nat) (others : list Event),
      pool !! i = Some (settle id w) →
      Forall (λ e, e ≠ Turn i) others →
      let before := interleave others (db, pool) in
      world_step (Turn i) before
      = (before.1, <[i := Ret (mkResponse 400 NoBody)]> before.2).
Proof.
  intros Hm Hs. split; [by apply (serve_settle_settled _ _ m)|].
  intros pool i others Hi Ho. cbn zeta.
  destruct (interleave_waiting others (db, pool) id i (settle id w) Ho)
    as [(m' & Hm' & Hs') Hi']; [by exists m | done |].
  destruct (interleave others (db, pool)) as [db' pool']. cbn in *.
  rewrite Hi'. by rewrite (step_settle_settled _ _ m').
Qed.

(** The second scenario of the specification: the match settled for "A"
    is settled again, for "B". *)
Lemma settle_settled_rejected_witness :
  let db1 := (serve (Settle "m1" (Some "A")) db_alpha).1 in
  matches db1 !! "m1" = Some (Match.set_settled (Some "A") alpha_vs_beta)
  ∧ Match.status (Match.set_settled (Some "A") alpha_vs_beta) = "SETTLED"
  ∧ serve (Settle "m1" (Some "B")) db1 = (db1, mkResponse 400 NoBody).
Proof.
  split; [reflexivity|]. split; [reflexivity|].
  apply (settle_settled_rejected
           (serve (Settle "m1" (Some "A")) db_alpha).1 "m1" (Some "B")
           (Match.set_settled (Some "A") alpha_vs_beta));
    reflexivity.
Defined.

(** C1, as stated, fails for concurrent calls.  After the first call has
    saved the match as SETTLED the second call is still in flight; it
    goes on to answer 200, and the payouts are applied twice: four ledger
    entries, p1 at +200 and p2 at -200. *)
Lemma settle_race_pays_twice :
  let saved := interleave [Turn 0; Turn 1; Turn 0] two_settles in
  let final := interleave race two_settles in
  Match.status <$> matches saved.1 !! "m1" = Some "SETTLED"
  ∧ finished <$> saved.2 !! 1%nat = Some None
  ∧ map (fmap code ∘ finished) final.2 = [Some 200; Some 200]
  ∧ length (transactions final.1) = 4%nat
  ∧ User.balance <$> users final.1 !! "p1" = Some 200
  ∧ User.balance <$> users final.1 !! "p2" = Some (-200).
Proof. vm_compute. repeat split; reflexivity. Qed.





(** ** Administrative adjustment *)

Lemma adjust_unfold db userId amount description :
  serve (Adjust userId amount description) db
  = match users db !! userId with
    | Some u =>
        (mkDB (<[userId := User.inc_balance amount u]> (users db))
              (matches db)
              (transactions db
               ++ [Transaction.mk userId amount "ADMIN_ADJUST" description (now db)])
              (notifications db
               ++ [Notification.mk userId (adjust_message amount description)
                     (now db) false])
              (now db),
         mkResponse 200 (JsonUser (Some (User.inc_balance amount u))))
    | None => (db, mkResponse 404 (JsonMessage "User not found"))
    end.
Proof.
  unfold serve, handler, adjust. cbn.
  by destruct (users db !! userId) as [u|] eqn:E.
Qed.

(** ** Ledger queries *)

Global Instance newer_first_trans : Transitive newer_first.
Proof. unfold newer_first. intros x y z ? ?. lia. Qed.

Global Instance newer_first_total : Total newer_first.
Proof. unfold newer_first. intros x y. lia. Qed.

(** C9. [GET /api/transactions] answers with all ledger entries and
    [GET /api/transactions/:userId] with exactly the entries whose
    [userId] is the given one; in both answers every entry is at least
    as recent as all entries after it.  Neither changes the store. *)
Theorem transactions_newest_first (db : DB) :
  (∃ l, serve ListTransactions db = (db, mkResponse 200 (JsonTransactions l))
        ∧ l ≡ₚ transactions db
        ∧ StronglySorted newer_first l)
  ∧ ∀ uid,
      ∃ l, serve (ListUserTransactions uid) db
           = (db, mkResponse 200 (JsonTransactions l))
           ∧ l ≡ₚ filter (λ t, Transaction.userId t = uid) (transactions db)
           ∧ StronglySorted newer_first l
           ∧ Forall (λ t, Transaction.userId t = uid) l.
Proof.
  split.
  - eexists. split; [reflexivity|]. split.
    + unfold sort_timestamp_desc. rewrite merge_sort_Permutation.
      induction (transactions db) as [|t l IH]; [done|].
      rewrite filter_cons_True by done. by rewrite IH.
    + apply StronglySorted_merge_sort; apply _.
  - intros uid. eexists. split; [reflexivity|].
    assert (filter (λ t, tx_matches (Some uid) t = true) (transactions db)
            = filter (λ t, Transaction.userId t = uid) (transactions db)) as ->.
    { apply list_filter_iff. intros t. cbn. by rewrite bool_decide_eq_true. }
    split; [apply merge_sort_Permutation|].
    split; [apply StronglySorted_merge_sort; apply _|].
    apply Forall_forall. intros t Ht.
    unfold sort_timestamp_desc in Ht. rewrite merge_sort_Permutation in Ht.
    by apply list_elem_of_filter in Ht as [? _].
Qed.

(** ** Payment marking *)

Lemma find_player_alter uid l i p :
  find_player uid l = Some (i, p) →
  find_player uid (alter Player.set_paid i l) = Some (i, Player.set_paid p).
Proof.
  unfold find_player. revert i.
  induction l as [|x l IH]; intros i H; cbn in *; [done|].
  destruct (decide (Player.userId x = uid)) as [Hx|Hx].
  - injection H as <- <-. cbn. by rewrite decide_True.
  - destruct (list_find _ l) as [[i' p']|] eqn:E; cbn in H; [|done].
    injection H as <- <-. cbn. rewrite decide_False by done.
    by rewrite (IH i').
Qed.

Lemma find_player_marked uid team :
  let i := fst <$> find_player uid team in
  find_player uid (from_option (λ i, alter Player.set_paid i team) team i)
  = prod_map id Player.set_paid <$> find_player uid team.
Proof.
  cbn. destruct (find_player uid team) as [[i p]|] eqn:E; cbn.
  - by apply find_player_alter.
  - done.
Qed.

Lemma alter_set_paid_idem i (l : list Player.t) :
  alter Player.set_paid i (alter Player.set_paid i l) = alter Player.set_paid i l.
Proof. rewrite list_alter_alter_eq. by apply list_alter_ext. Qed.

Lemma set_paid_idem ia ib m :
  Match.set_paid ia ib (Match.set_paid ia ib m) = Match.set_paid ia ib m.
Proof.
  unfold Match.set_paid. cbn.
  destruct ia, ib; cbn; by rewrite ?alter_set_paid_idem.
Qed.

Lemma map_stake_alter i (l : list Player.t) :
  map stake (alter Player.set_paid i l) = map stake l.
Proof.
  revert i. induction l as [|x l IH]; intros [|i]; cbn; [done..| |].
  - done.
  - by rewrite IH.
Qed.

Lemma serve_pay_ok id uid m db :
  matches db !! id = Some m →
  is_Some (find_player uid (Match.teamA m)) ∨ is_Some (find_player uid (Match.teamB m)) →
  serve (Pay id uid) db
  = (with_users (alter (User.inc_totalMatchesPaid 1) uid)
       (with_matches
          (alter (Match.set_paid (paid_index uid (Match.teamA m))
                                 (paid_index uid (Match.teamB m))) id) db),
     mkResponse 200
       (JsonMatch (Match.set_paid (paid_index uid (Match.teamA m))
                                  (paid_index uid (Match.teamB m)) m))).
Proof.
  intros Hm Hf. unfold serve, handler, pay, paid_index. cbn. rewrite Hm.
  assert (match fst <$> find_player uid (Match.teamA m),
                fst <$> find_player uid (Match.teamB m) with
          | None, None => false
          | _, _ => true
          end = true) as ->.
  { destruct Hf as [[x ->]|[x ->]]; cbn; [done|].
    by destruct (find_player uid (Match.teamA m)). }
  cbn. destruct (users db !! uid) as [u|] eqn:E; cbn; f_equal;
    unfold with_users, with_matches; cbn; f_equal; apply map_eq; intros j.
  - rewrite lookup_insert, lookup_alter.
    case_decide; subst; [by rewrite E | done].
  - rewrite lookup_alter. case_decide; subst; [by rewrite E | done].
Qed.

Lemma serve_pay_not_found id uid m db :
  matches db !! id = Some m →
  find_player uid (Match.teamA m) = None →
  find_player uid (Match.teamB m) = None →
  serve (Pay id uid) db
  = (db, mkResponse 404 (JsonMessage "Player not found in match")).
Proof.
  intros Hm Ha Hb. unfold serve, handler, pay. cbn. by rewrite Hm, Ha, Hb.
Qed.

Lemma serve_pay_absent id uid db :
  matches db !! id = None →
  serve (Pay id uid) db = (db, mkResponse 404 (JsonMessage "Match not found")).
Proof. intros Hm. unfold serve, handler, pay. cbn. by rewrite Hm. Qed.

(** C3. When the player is on a roster of the match and has an account,
    both of two successive calls to [pay] answer 200.  The first marks
    the player's entry (the first one with that [userId]) in each team
    that has one; the second leaves the matches as the first left them.
    Each call adds 1 to [totalMatchesPaid]: +1 after the first call, +2
    after the second. *)
Theorem pay_twice (db : DB) (id uid : string) (m : Match.t) (u : User.t) :
  matches db !! id = Some m →
  is_Some (find_player uid (Match.teamA m)) ∨ is_Some (find_player uid (Match.teamB m)) →
  users db !! uid = Some u →
  let first := serve (Pay id uid) db in
  let second := serve (Pay id uid) first.1 in
  code first.2 = 200 ∧ code second.2 = 200
  ∧ (∃ m1, matches first.1 !! id = Some m1
           ∧ (∀ i p, find_player uid (Match.teamA m1) = Some (i, p) → Player.paid p = true)
           ∧ (∀ i p, find_player uid (Match.teamB m1) = Some (i, p) → Player.paid p = true)
           ∧ (is_Some (find_player uid (Match.teamA m1))
              ∨ is_Some (find_player uid (Match.teamB m1))))
  ∧ matches second.1 = matches first.1
  ∧ User.totalMatchesPaid <$> users first.1 !! uid = Some (User.totalMatchesPaid u + 1)
  ∧ User.totalMatchesPaid <$> users second.1 !! uid = Some (User.totalMatchesPaid u + 2).
Proof.
  intros Hm Hf Hu. cbn zeta.
  rewrite (serve_pay_ok id uid m db) by done. cbn [fst snd].
  set (ia := paid_index uid (Match.teamA m)).
  set (ib := paid_index uid (Match.teamB m)).
  set (db1 := with_users _ _).
  assert (matches db1 !! id = Some (Match.set_paid ia ib m)) as Hm1.
  { subst db1. cbn. by rewrite lookup_alter_eq, Hm. }
  assert (find_player uid (Match.teamA (Match.set_paid ia ib m))
          = prod_map Datatypes.id Player.set_paid <$> find_player uid (Match.teamA m)) as HA.
  { apply find_player_marked. }
  assert (find_player uid (Match.teamB (Match.set_paid ia ib m))
          = prod_map Datatypes.id Player.set_paid <$> find_player uid (Match.teamB m)) as HB.
  { apply find_player_marked. }
  assert (is_Some (find_player uid (Match.teamA (Match.set_paid ia ib m)))
          ∨ is_Some (find_player uid (Match.teamB (Match.set_paid ia ib m)))) as Hf1.
  { rewrite HA, HB. destruct Hf as [[x ->]|[x ->]]; [left|right]; by eexists. }
  rewrite (serve_pay_ok id uid (Match.set_paid ia ib m) db1) by done.
  assert (paid_index uid (Match.teamA (Match.set_paid ia ib m)) = ia) as ->.
  { unfold paid_index. rewrite HA. subst ia. unfold paid_index.
    by destruct (find_player uid (Match.teamA m)) as [[??]|]. }
  assert (paid_index uid (Match.teamB (Match.set_paid ia ib m)) = ib) as ->.
  { unfold paid_index. rewrite HB. subst ib. unfold paid_index.
    by destruct (find_player uid (Match.teamB m)) as [[??]|]. }
  cbn [fst snd code].
  split; [done|]. split; [done|]. split.
  { exists (Match.set_paid ia ib m). split; [done|].
    split; [|split; [|exact Hf1]]; rewrite ?HA, ?HB.
    - intros i p H. destruct (find_player uid (Match.teamA m)) as [[??]|]; [|done].
      cbn in H. by injection H as <- <-.
    - intros i p H. destruct (find_player uid (Match.teamB m)) as [[??]|]; [|done].
      cbn in H. by injection H as <- <-. }
  split.
  { subst db1. cbn. apply map_eq. intros j. rewrite !lookup_alter.
    case_decide; [|done]. subst j. rewrite Hm. cbn.
    rewrite decide_True by done. cbn. by rewrite set_paid_idem. }
  split.
  - subst db1. cbn. by rewrite lookup_alter_eq, Hu.
  - subst db1. cbn. rewrite !lookup_alter_eq, Hu. cbn. f_equal. lia.
Qed.

Lemma pay_twice_witness :
  matches db_alpha !! "m1" = Some alpha_vs_beta
  ∧ is_Some (find_player "p1" (Match.teamA alpha_vs_beta))
  ∧ users db_alpha !! "p1" = Some (player "one")
  ∧ User.totalMatchesPaid <$> users paid_twice !! "p1"
    = Some (User.totalMatchesPaid (player "one") + 2).
Proof.
  split; [reflexivity|]. split; [by eexists|]. split; [reflexivity|].
  apply (pay_twice db_alpha "m1" "p1" alpha_vs_beta (player "one"));
    [reflexivity | left; by eexists | reflexivity].
Defined.

(** C3, as stated, fails: the second call counts again.  p1 starts at 0
    paid matches, is marked paid by the first call and stays so, and
    stands at 2 after the second call. *)
Lemma pay_twice_counts_twice :
  User.totalMatchesPaid <$> users db_alpha !! "p1" = Some 0
  ∧ User.totalMatchesPaid <$> users paid_once !! "p1" = Some 1
  ∧ map Player.paid <$> (Match.teamA <$> matches paid_once !! "m1") = Some [true]
  ∧ (serve (Pay "m1" "p1") paid_once).2.(code) = 200
  ∧ map Player.paid <$> (Match.teamA <$> matches paid_twice !! "m1") = Some [true]
  ∧ User.totalMatchesPaid <$> users paid_twice !! "p1" = Some 2.
Proof. vm_compute. repeat split; reflexivity. Qed.

(** ** Conservation *)





(** ** Matches *)

Lemma alter_lookup_insert {A} (f : A → A) (i : string) (x : A) (m : gmap string A) :
  m !! i = Some x → alter f i m = <[i := f x]> m.
Proof.
  intros H. apply map_eq. intros j. rewrite lookup_alter, lookup_insert.
  case_decide; subst; [by rewrite H | done].
Qed.

(** What a request does to the matches. *)
Lemma serve_matches r db :
  matches (serve r db).1 = matches db
  ∨ (∃ id b, r = CreateMatch id b ∧ matches db !! id = None
       ∧ matches (serve r db).1 = <[id := Match.of_body (now db) b]> (matches db))
  ∨ (∃ id w m, r = Settle id w ∧ matches db !! id = Some m
       ∧ Match.status m ≠ "SETTLED"
       ∧ matches (serve r db).1 = <[id := Match.set_settled w m]> (matches db))
  ∨ (∃ id uid m ia ib, r = Pay id uid ∧ matches db !! id = Some m
       ∧ matches (serve r db).1 = <[id := Match.set_paid ia ib m]> (matches db)).
Proof.
  destruct r as [id b|uid a d|id b|id w|id uid| |uid].
  - left. unfold serve, handler, patch_user. cbn [run].
    rewrite (surjective_pairing (exec_op _ db)), findByIdAndUpdate_db. done.
  - left. rewrite adjust_unfold. by destruct (users db !! uid).
  - unfold serve, handler, create_match. cbn.
    destruct (matches db !! id) eqn:E; cbn; [by left|].
    right; left. by exists id, b.
  - destruct (matches db !! id) as [m|] eqn:Hm.
    + destruct (decide (Match.status m = "SETTLED")) as [Hs|Hs].
      * left. by rewrite (serve_settle_settled _ _ m).
      * right; right; left. exists id, w, m.
        rewrite (serve_settle_ok _ _ m) by done. cbn.
        unfold settled_db. rewrite apply_movements_matches. cbn.
        by rewrite (alter_lookup_insert _ _ m).
    + left. by rewrite serve_settle_absent.
  - destruct (matches db !! id) as [m|] eqn:Hm.
    + destruct (find_player uid (Match.teamA m)) as [x|] eqn:Ha;
        [|destruct (find_player uid (Match.teamB m)) as [y|] eqn:Hb].
      * right; right; right. exists id, uid, m.
        rewrite (serve_pay_ok _ _ m) by (try done; left; rewrite Ha; by eexists).
        cbn. do 2 eexists. by rewrite (alter_lookup_insert _ _ m).
      * right; right; right. exists id, uid, m.
        rewrite (serve_pay_ok _ _ m) by (try done; right; rewrite Hb; by eexists).
        cbn. do 2 eexists. by rewrite (alter_lookup_insert _ _ m).
      * left. by rewrite (serve_pay_not_found _ _ m).
    + left. by rewrite serve_pay_absent.
  - by left.
  - by left.
Qed.

Lemma same_stakes_refl m : same_stakes m m.
Proof. by repeat split. Qed.

Lemma same_stakes_trans m1 m2 m3 :
  same_stakes m1 m2 → same_stakes m2 m3 → same_stakes m1 m3.
Proof.
  intros (Hn & Ha & Hb & Hs) (Hn' & Ha' & Hb' & Hs').
  split; [congruence|]. split; [congruence|]. split; [congruence|].
  intros H. destruct (Hs H) as [H1 H2]. destruct (Hs' H1) as [H3 H4].
  split; congruence.
Qed.

Lemma same_stakes_set_paid ia ib m : same_stakes m (Match.set_paid ia ib m).
Proof.
  split; [done|]. split; [|split; [|done]]; cbn.
  - destruct ia; cbn; [apply map_stake_alter | done].
  - destruct ib; cbn; [apply map_stake_alter | done].
Qed.

Lemma same_stakes_set_settled w m :
  Match.status m ≠ "SETTLED" → same_stakes m (Match.set_settled w m).
Proof. intros Hs. by repeat split. Qed.

Lemma stakes_preserved_serve r db : stakes_preserved db (serve r db).1.
Proof.
  intros id m Hm.
  destruct (serve_matches r db)
    as [E|[(i & b & _ & Hi & E)|[(i & w & m0 & _ & Hi & Hs & E)
                                |(i & uid & m0 & ia & ib & _ & Hi & E)]]];
    rewrite E.
  - exists m. split; [done | apply same_stakes_refl].
  - exists m. rewrite lookup_insert_ne by congruence.
    split; [done | apply same_stakes_refl].
  - destruct (decide (i = id)) as [->|Hne].
    + assert (m0 = m) as -> by congruence.
      rewrite lookup_insert_eq. eexists. split; [done|].
      by apply same_stakes_set_settled.
    + rewrite lookup_insert_ne by done.
      exists m. split; [done | apply same_stakes_refl].
  - destruct (decide (i = id)) as [->|Hne].
    + assert (m0 = m) as -> by congruence.
      rewrite lookup_insert_eq. eexists. split; [done|].
      apply same_stakes_set_paid.
    + rewrite lookup_insert_ne by done.
      exists m. split; [done | apply same_stakes_refl].
Qed.

Lemma stakes_preserved_serve_all rs db : stakes_preserved db (serve_all rs db).
Proof.
  revert db. induction rs as [|r rs IH]; intros db id m Hm.
  - exists m. split; [done | apply same_stakes_refl].
  - cbn. destruct (stakes_preserved_serve r db id m Hm) as (m1 & Hm1 & H1).
    destruct (IH _ id m1 Hm1) as (m2 & Hm2 & H2).
    exists m2. split; [done|]. by apply (same_stakes_trans m m1 m2).
Qed.

Lemma winner_iff_settled_serve r db :
  names_winner r → winner_iff_settled db → winner_iff_settled (serve r db).1.
Proof.
  intros Hr Hinv id m.
  destruct (serve_matches r db)
    as [E|[(i & b & -> & Hi & E)|[(i & w & m0 & -> & Hi & Hs & E)
                                 |(i & uid & m0 & ia & ib & -> & Hi & E)]]];
    rewrite E.
  - apply Hinv.
  - rewrite lookup_insert. case_decide; [|apply Hinv].
    intros [= <-]. exact Hr.
  - rewrite lookup_insert. case_decide; [|apply Hinv].
    intros [= <-]. cbn in *. done.
  - rewrite lookup_insert. case_decide; [|apply Hinv].
    intros [= <-]. cbn. by apply (Hinv i m0).
Qed.

(** C8. Under every sequence of requests a stored match keeps its name
    and its rosters up to [paid] flags, and a SETTLED match keeps its
    status and winner.  [winningTeam] is set exactly for the SETTLED
    matches as long as the requests name a winner where they mark a match
    SETTLED: every [settle] carries a [winningTeam], and every created
    match carries a [winningTeam] exactly if it is created as SETTLED. *)
Theorem match_invariants (db : DB) (rs : list Request) :
  stakes_preserved db (serve_all rs db)
  ∧ (winner_iff_settled db → Forall names_winner rs →
     winner_iff_settled (serve_all rs db)).
Proof.
  split; [apply stakes_preserved_serve_all|].
  intros Hinv Hrs. revert db Hinv.
  induction Hrs as [|r rs Hr _ IH]; intros db Hinv; [done|].
  cbn. apply IH. by apply winner_iff_settled_serve.
Qed.

Lemma winner_iff_settled_db_alpha : winner_iff_settled db_alpha.
Proof.
  intros id m. unfold db_alpha. cbn.
  rewrite lookup_insert. case_decide.
  - intros [= <-]. cbn. split; [by intros [? ?] | done].
  - by rewrite lookup_empty.
Qed.

Lemma match_invariants_witness :
  Forall names_winner match_day
  ∧ winner_iff_settled (serve_all match_day db_alpha)
  ∧ stakes_preserved db_alpha (serve_all match_day db_alpha).
Proof.
  assert (Forall names_winner match_day) as H.
  { unfold match_day. apply Forall_cons; split.
    - cbn. split; [intros [? ?]; discriminate | discriminate].
    - repeat (apply Forall_cons; split; [cbn; try exact I; by eexists|]).
      apply Forall_nil_2. }
  split; [exact H|]. split.
  - apply (proj2 (match_invariants db_alpha match_day) winner_iff_settled_db_alpha H).
  - apply (proj1 (match_invariants db_alpha match_day)).
Defined.

(** C8, as stated, fails in both directions: a [settle] whose body has
    no [winningTeam] leaves a SETTLED match without winner, and a match
    created with a [winningTeam] in its body is UNDECIDED with a winner
    set. *)
Lemma winner_not_iff_settled :
  winner_iff_settled db_alpha
  ∧ matches (serve_all settle_empty_body db_alpha) !! "m2"
    = Some (Match.mk "Beta rematch" [Player.mk "p2" "two" 50 false]
              [Player.mk "p1" "one" 50 false] None "SETTLED" 1000)
  ∧ ¬ winner_iff_settled (serve_all settle_empty_body db_alpha)
  ∧ matches (serve_all create_with_winner db_alpha) !! "m3"
    = Some (Match.mk "Gamma" [] [] (Some "A") "UNDECIDED" 1000)
  ∧ ¬ winner_iff_settled (serve_all create_with_winner db_alpha).
Proof.
  split; [apply winner_iff_settled_db_alpha|].
  assert (matches (serve_all settle_empty_body db_alpha) !! "m2"
    = Some (Match.mk "Beta rematch" [Player.mk "p2" "two" 50 false]
              [Player.mk "p1" "one" 50 false] None "SETTLED" 1000)) as E1
    by reflexivity.
  assert (matches (serve_all create_with_winner db_alpha) !! "m3"
    = Some (Match.mk "Gamma" [] [] (Some "A") "UNDECIDED" 1000)) as E2
    by reflexivity.
  split; [exact E1|]. split; [|split; [exact E2|]].
  - intros H. apply H in E1. cbn in E1. destruct E1 as [_ E1].
    destruct (E1 eq_refl) as [x Hx]. discriminate.
  - intros H. apply H in E2. cbn in E2. destruct E2 as [E2 _].
    assert (is_Some (Some "A")) as Hs by (by eexists).
    apply E2 in Hs. discriminate.
Qed.

(** * Further properties of the routes *)

(** ** What every store call preserves *)

Section Preserved.
Context (I : DB → DB → Prop) `{!PreOrder I}.
Hypothesis exec_op_preserves : ∀ X (op : Op X) db, I db (exec_op op db).1.
Hypothesis tick_preserves : ∀ d db, I db (tick d db).

Lemma step_preserves {R} (p : Prog R) db : I db (step p db).1.
Proof.
  destruct p as [r|X op k]; cbn; [done|].
  pose proof (exec_op_preserves X op db) as H.
  by destruct (exec_op op db).
Qed.

Lemma run_preserves {R} (p : Prog R) db : I db (run p db).1.
Proof.
  revert db. induction p as [r|X op k IH]; intros db; cbn; [done|].
  pose proof (exec_op_preserves X op db) as H.
  destruct (exec_op op db) as [db1 x]. cbn in H.
  by etrans; [exact H | apply IH].
Qed.

Lemma serve_all_preserves rs db : I db (serve_all rs db).
Proof.
  revert db. induction rs as [|r rs IH]; intros db; cbn; [done|].
  etrans; [apply (run_preserves (handler r)) | apply IH].
Qed.

Lemma world_step_preserves e (w : World) : I w.1 (world_step e w).1.
Proof.
  destruct w as [db pool]. destruct e as [i|d]; cbn.
  - destruct (pool !! i) as [p|]; [|done].
    pose proof (step_preserves p db) as H.
    by destruct (step p db).
  - apply tick_preserves.
Qed.

Lemma interleave_preserves es (w : World) : I w.1 (interleave es w).1.
Proof.
  revert w. induction es as [|e es IH]; intros w; cbn; [done|].
  etrans; [apply world_step_preserves | apply IH].
Qed.
End Preserved.

(** ** The ledger only grows, the accounts stay *)

Global Instance ledger_extends_preorder : PreOrder ledger_extends.
Proof.
  split.
  - intros a. unfold ledger_extends. done.
  - intros a b c. unfold ledger_extends. apply transitivity.
Qed.

Lemma exec_op_ledger_extends X (op : Op X) db :
  ledger_extends db (exec_op op db).1.
Proof.
  unfold ledger_extends.
  destruct op as [i upd new|i|i b|i d|????|??|?]; cbn [exec_op].
  - by destruct (users db !! i).
  - done.
  - by destruct (matches db !! i).
  - done.
  - cbn. by apply prefix_app_r.
  - done.
  - done.
Qed.

(** X1. No request rewrites or removes a ledger entry: after any
    sequence of requests, and at every point of any interleaving of
    handlers, the ledger is the earlier ledger followed by new
    entries. *)
Theorem ledger_append_only (db : DB) (rs : list Request)
    (pool : list (Prog Response)) (es : list Event) :
  transactions db `prefix_of` transactions (serve_all rs db)
  ∧ transactions db `prefix_of` transactions (interleave es (db, pool)).1.
Proof.
  split.
  - apply (serve_all_preserves ledger_extends exec_op_ledger_extends).
  - apply (interleave_preserves ledger_extends exec_op_ledger_extends
             (λ d db, reflexivity _) es (db, pool)).
Qed.

Global Instance same_accounts_preorder : PreOrder same_accounts.
Proof.
  split.
  - by intros a.
  - intros a b c. unfold same_accounts. congruence.
Qed.

Lemma exec_op_same_accounts X (op : Op X) db :
  same_accounts db (exec_op op db).1.
Proof.
  unfold same_accounts.
  destruct op as [i upd new|i|i b|i d|????|??|?]; cbn [exec_op]; try done.
  - destruct (users db !! i) as [u|] eqn:E; [|done]. cbn.
    symmetry. apply dom_insert_lookup_L. by eexists.
  - by destruct (matches db !! i).
Qed.

(** X2. None of the ledger routes creates or removes an account: the
    set of user ids is the same after any sequence of requests and at
    every point of any interleaving.  In particular [settle] and [pay]
    never create the account a roster entry names. *)
Theorem accounts_fixed (db : DB) (rs : list Request)
    (pool : list (Prog Response)) (es : list Event) :
  dom (users (serve_all rs db)) = dom (users db)
  ∧ dom (users (interleave es (db, pool)).1) = dom (users db).
Proof.
  split; symmetry.
  - apply (serve_all_preserves same_accounts exec_op_same_accounts).
  - apply (interleave_preserves same_accounts exec_op_same_accounts
             (λ d db, reflexivity _) es (db, pool)).
Qed.

(** ** Errors and totals of [settle] *)

Lemma ledger_total_app l1 l2 :
  ledger_total (l1 ++ l2) = ledger_total l1 + ledger_total l2.
Proof.
  unfold ledger_total. induction l1 as [|t l1 IH]; cbn; [done|]. rewrite IH. lia.
Qed.

Lemma ledger_total_wins m t ps :
  ledger_total (map (win_entry m t) ps) = roster_total ps.
Proof.
  unfold ledger_total, roster_total.
  induction ps as [|p ps IH]; cbn; [done|]. by rewrite IH.
Qed.

Lemma ledger_total_losses m t ps :
  ledger_total (map (loss_entry m t) ps) = - roster_total ps.
Proof.
  unfold ledger_total, roster_total.
  induction ps as [|p ps IH]; cbn; [done|]. rewrite IH. lia.
Qed.

(** ** Errors and frame of [pay] *)










(** ** User updates *)

Lemma serve_patch_user id b db :
  serve (PatchUser id b) db
  = (with_users (alter (User.apply_patch b) id) db,
     mkResponse 200 (JsonUser (User.apply_patch b <$> users db !! id))).
Proof.
  unfold serve, handler, patch_user. cbn [run].
  rewrite (surjective_pairing (exec_op _ db)), findByIdAndUpdate_db.
  cbn. by destruct (users db !! id).
Qed.



(** ** Login *)

Lemma find_one_user_Some P `{!∀ u, Decision (P u)} us u :
  find_one_user P us = Some u → ∃ id, us !! id = Some u ∧ P u.
Proof.
  unfold find_one_user. intros Hf.
  destruct (list_find _ (map_to_list us)) as [[n [id v]]|] eqn:E; [|done].
  cbn in Hf. injection Hf as ->.
  apply list_find_Some in E as (Hn & HP & _).
  apply list_elem_of_lookup_2, elem_of_map_to_list in Hn.
  by exists id.
Qed.

Lemma find_one_user_None P `{!∀ u, Decision (P u)} us :
  find_one_user P us = None ↔ ∀ id u, us !! id = Some u → ¬ P u.
Proof.
  unfold find_one_user. rewrite fmap_None, list_find_None, Forall_forall.
  split.
  - intros Hf id u Hu. apply (Hf (id, u)). by apply elem_of_map_to_list.
  - intros Hf [id u] Hin. apply (Hf id u). by apply elem_of_map_to_list.
Qed.

(** X13. The email is lower-cased on login only, never when it is
    stored.  So, [toLowerCase] being idempotent, a user whose stored
    email is not in lower case is never the answer of a login, whatever
    email and pin are sent. *)
Theorem mixed_case_email_locked_out (toLowerCase : string → string)
    (email pin : string) (db : DB) (u : User.t) :
  (∀ s, toLowerCase (toLowerCase s) = toLowerCase s) →
  toLowerCase (User.email u) ≠ User.email u →
  login toLowerCase email pin db ≠ mkResponse 200 (JsonUser (Some u)).
Proof.
  intros Hidem Hu H. unfold login in H.
  destruct (find_one_user _ (users db)) as [v|] eqn:E; [|done].
  destruct (find_one_user_Some _ _ _ E) as (id & _ & He & _).
  destruct (User.isBlocked v); [done|].
  injection H as ->. apply Hu. by rewrite He, Hidem.
Qed.

Lemma lower_ascii_idem c : lower_ascii (lower_ascii c) = lower_ascii c.
Proof. by destruct c as [[] [] [] [] [] [] [] []]. Qed.

Lemma ascii_lower_idem s : ascii_lower (ascii_lower s) = ascii_lower s.
Proof.
  induction s as [|c s IH]; cbn; [done|]. by rewrite lower_ascii_idem, IH.
Qed.

Lemma mixed_case_email_locked_out_witness :
  (∀ s, ascii_lower (ascii_lower s) = ascii_lower s)
  ∧ ascii_lower (User.email viper) ≠ User.email viper
  ∧ login ascii_lower "Viper@grid" "9999" db_users
    ≠ mkResponse 200 (JsonUser (Some viper)).
Proof.
  assert (ascii_lower (User.email viper) ≠ User.email viper) as H.
  { vm_compute. discriminate. }
  split; [exact ascii_lower_idem|]. split; [exact H|].
  apply (mixed_case_email_locked_out ascii_lower "Viper@grid" "9999" db_users
           viper ascii_lower_idem H).
Defined.

(** ** Registration *)

Lemma required_Some field s : required field = Some s ↔ field = Some s ∧ s ≠ "".
Proof.
  unfold required. destruct field as [x|].
  - case_decide as E.
    + split; [done|]. intros [[= ->] Hs]. done.
    + split; [intros [= ->]; by split|]. by intros [[= ->] _].
  - split; [done|]. by intros [? _].
Qed.

Lemma required_None field : required field = None ↔ blank field.
Proof.
  unfold required, blank. destruct field as [x|].
  - case_decide as E.
    + subst x. split; [by right | done].
    + split; [done|]. intros [?|[= ->]]; done.
  - split; [by left | done].
Qed.

Lemma user_of_body_Some t b u :
  user_of_body t b = Some u →
  User.p_username b = Some (User.username u)
  ∧ User.p_email b = Some (User.email u)
  ∧ User.p_pin b = Some (User.pin u)
  ∧ User.role u = default "PLAYER" (User.p_role b)
  ∧ User.balance u = default 0 (User.p_balance b)
  ∧ User.isBlocked u = default false (User.p_isBlocked b)
  ∧ User.isDeleted u = default false (User.p_isDeleted b)
  ∧ User.canCreateMatch u = default false (User.p_canCreateMatch b)
  ∧ User.totalMatchesPaid u = default 0 (User.p_totalMatchesPaid b)
  ∧ User.createdAt u = default t (User.p_createdAt b).
Proof.
  unfold user_of_body.
  destruct (required (User.p_username b)) as [n|] eqn:En; [|done].
  destruct (required (User.p_email b)) as [e|] eqn:Ee; [|done].
  destruct (required (User.p_pin b)) as [p|] eqn:Ep; [|done].
  intros [= <-]. cbn.
  apply required_Some in En as [-> _]. apply required_Some in Ee as [-> _].
  apply required_Some in Ep as [-> _]. done.
Qed.

Lemma create_user_cases id b db :
  create_user id b db = (db, identity_conflict)
  ∨ ∃ u, user_of_body (now db) b = Some u
         ∧ users db !! id = None
         ∧ ¬ taken User.username (User.username u) (users db)
         ∧ ¬ taken User.email (User.email u) (users db)
         ∧ create_user id b db
           = (with_users (insert id u) db, mkResponse 200 (JsonUser (Some u))).
Proof.
  unfold create_user. destruct (user_of_body (now db) b) as [u|]; [|by left].
  case_decide as H; [by left|]. right. exists u.
  split; [done|]. split; [|split; [|split; [|done]]].
  - destruct (users db !! id) eqn:E; [|done]. exfalso. apply H. left. by eexists.
  - intros Ht. apply H. by right; left.
  - intros Ht. apply H. by right; right.
Qed.

(** X14. A registration is refused with 400 "Identity Conflict: ..." and
    leaves the store untouched when username, email or pin is absent or
    empty, when the id is in use, or when any stored user, a deleted one
    included, has the same username or the same email. *)
Theorem create_user_refused (id : string) (b : User.patch) (db : DB) :
  blank (User.p_username b) ∨ blank (User.p_email b) ∨ blank (User.p_pin b)
  ∨ is_Some (users db !! id)
  ∨ (∃ i u, users db !! i = Some u
            ∧ (User.p_username b = Some (User.username u)
               ∨ User.p_email b = Some (User.email u))) →
  create_user id b db = (db, identity_conflict).
Proof.
  intros H.
  destruct (create_user_cases id b db)
    as [E|(u & Hb & Hid & Hn & He & _)]; [done|].
  exfalso.
  pose proof (user_of_body_Some _ _ _ Hb) as (Bn & Be & Bp & _).
  unfold user_of_body in Hb.
  destruct H as [H|[H|[H|[H|(i & v & Hv & [H|H])]]]].
  - apply required_None in H. by rewrite H in Hb.
  - apply required_None in H. rewrite H in Hb.
    by destruct (required (User.p_username b)).
  - apply required_None in H. rewrite H in Hb.
    by destruct (required (User.p_username b)), (required (User.p_email b)).
  - rewrite Hid in H. by destruct H.
  - apply Hn. exists i, v. split; [done|]. congruence.
  - apply He. exists i, v. split; [done|]. congruence.
Qed.

Lemma create_user_refused_witness :
  users db_users !! "u3"
  = Some (User.mk "Old" "old@grid" "0000" "PLAYER" 0 false true false 0 0)
  ∧ create_user "u9" old_again db_users = (db_users, identity_conflict).
Proof.
  split; [reflexivity|].
  apply (create_user_refused "u9" old_again db_users).
  right; right; right; right.
  exists "u3", (User.mk "Old" "old@grid" "0000" "PLAYER" 0 false true false 0 0).
  split; [reflexivity | left; reflexivity].
Defined.

(** X15. An accepted registration stores, under a fresh id, exactly the
    fields of the body and the schema defaults for the missing ones:
    the body decides role, balance and flags if it carries them, and no
    ledger entry is written for an initial balance.  No stored user had
    the username or the email. *)
Theorem create_user_accepted (id : string) (b : User.patch) (db : DB) :
  (create_user id b db).2.(code) = 200 →
  ∃ u, create_user id b db
       = (mkDB (<[id := u]> (users db)) (matches db) (transactions db)
               (notifications db) (now db),
          mkResponse 200 (JsonUser (Some u)))
       ∧ users db !! id = None
       ∧ User.p_username b = Some (User.username u)
       ∧ User.p_email b = Some (User.email u)
       ∧ User.p_pin b = Some (User.pin u)
       ∧ User.role u = default "PLAYER" (User.p_role b)
       ∧ User.balance u = default 0 (User.p_balance b)
       ∧ User.isBlocked u = default false (User.p_isBlocked b)
       ∧ User.isDeleted u = default false (User.p_isDeleted b)
       ∧ User.canCreateMatch u = default false (User.p_canCreateMatch b)
       ∧ User.totalMatchesPaid u = default 0 (User.p_totalMatchesPaid b)
       ∧ User.createdAt u = default (now db) (User.p_createdAt b)
       ∧ ∀ i v, users db !! i = Some v →
           User.username v ≠ User.username u ∧ User.email v ≠ User.email u.
Proof.
  intros Hc.
  destruct (create_user_cases id b db)
    as [E|(u & Hb & Hid & Hn & He & E)]; [by rewrite E in Hc|].
  exists u. split; [by rewrite E|]. split; [done|].
  pose proof (user_of_body_Some _ _ _ Hb) as (?&?&?&?&?&?&?&?&?&?).
  repeat (split; [done|]).
  intros i v Hv. split.
  - intros Heq. apply Hn. by exists i, v.
  - intros Heq. apply He. by exists i, v.
Qed.

Lemma create_user_accepted_witness :
  (create_user "u9" self_made db_users).2.(code) = 200
  ∧ ∃ u, (create_user "u9" self_made db_users).2 = mkResponse 200 (JsonUser (Some u))
         ∧ User.role u = "ADMIN" ∧ User.balance u = 1000000
         ∧ transactions (create_user "u9" self_made db_users).1 = [].
Proof.
  assert ((create_user "u9" self_made db_users).2.(code) = 200) as H
    by reflexivity.
  split; [exact H|].
  destruct (create_user_accepted "u9" self_made db_users H)
    as (u & E & _ & _ & _ & _ & Hr & Hb & _).
  exists u. rewrite E. cbn. split; [reflexivity|]. split; [exact Hr|].
  split; [exact Hb | reflexivity].
Defined.

(** X16. Registration keeps usernames and emails unique: if no two
    stored users share a username or an email, this is still so after
    [create_user], whether it accepts or refuses. *)
Theorem create_user_keeps_identities_unique (id : string) (b : User.patch)
    (db : DB) :
  unique_identities (users db) →
  unique_identities (users (create_user id b db).1).
Proof.
  intros Hu.
  destruct (create_user_cases id b db)
    as [E|(u & Hb & Hid & Hn & He & E)]; rewrite E; [done|].
  cbn. intros i j x y Hi Hj Hne.
  apply lookup_insert_Some in Hi as [[<- <-]|[Hi' Hi]];
    apply lookup_insert_Some in Hj as [[<- <-]|[Hj' Hj]].
  - done.
  - split; intros Heq.
    + apply Hn. exists j, y. by split.
    + apply He. exists j, y. by split.
  - split; intros Heq.
    + apply Hn. exists i, x. by split.
    + apply He. exists i, x. by split.
  - by apply (Hu i j).
Qed.

Lemma unique_identities_db_ghost : unique_identities (users db_ghost).
Proof.
  intros i j u v Hi Hj Hne. cbn in Hi, Hj.
  apply lookup_singleton_Some in Hi as [<- _].
  apply lookup_singleton_Some in Hj as [<- _]. done.
Qed.

Lemma create_user_keeps_identities_unique_witness :
  unique_identities (users db_ghost)
  ∧ unique_identities (users (create_user "u9" self_made db_ghost).1).
Proof.
  split; [exact unique_identities_db_ghost|].
  apply (create_user_keeps_identities_unique "u9" self_made db_ghost
           unique_identities_db_ghost).
Defined.

(** X17. Register, then log in.  When a registration is accepted with an
    email that is already in lower case and the user is not created as
    deleted, a login with that email and pin finds exactly this user: it
    answers 200 with the stored document, or 403 if the user was created
    as blocked. *)
Theorem create_then_login (toLowerCase : string → string) (id : string)
    (b : User.patch) (db : DB) (u : User.t) :
  (create_user id b db).2 = mkResponse 200 (JsonUser (Some u)) →
  toLowerCase (User.email u) = User.email u →
  User.isDeleted u = false →
  login toLowerCase (User.email u) (User.pin u) (create_user id b db).1
  = if User.isBlocked u
    then mkResponse 403 (JsonMessage "Operative blocked by High Command.")
    else mkResponse 200 (JsonUser (Some u)).
Proof.
  intros Hr Hl Hd.
  destruct (create_user_cases id b db)
    as [E|(u' & Hb & Hid & Hn & He & E)]; rewrite E in Hr |- *; [done|].
  cbn in Hr. injection Hr as ->. cbn [fst].
  unfold login. rewrite Hl.
  destruct (find_one_user _ _) as [v|] eqn:Ef.
  - destruct (find_one_user_Some _ _ _ Ef) as (j & Hj & Hemail & Hpin & _).
    cbn in Hj. apply lookup_insert_Some in Hj as [[_ <-]|[_ Hj]]; [done|].
    exfalso. apply He. by exists j, v.
  - exfalso.
    apply (proj1 (find_one_user_None _ _) Ef id u); [|done].
    cbn. by rewrite lookup_insert_eq.
Qed.

Lemma create_then_login_witness :
  (create_user "u9" trinity db_users).2 = mkResponse 200 (JsonUser (Some trinity_user))
  ∧ ascii_lower (User.email trinity_user) = User.email trinity_user
  ∧ User.isDeleted trinity_user = false
  ∧ login ascii_lower "trinity@grid" "2222" (create_user "u9" trinity db_users).1
    = mkResponse 200 (JsonUser (Some trinity_user)).
Proof.
  split; [reflexivity|]. split; [reflexivity|]. split; [reflexivity|].
  apply (create_then_login ascii_lower "u9" trinity db_users trinity_user);
    reflexivity.
Defined.

(** ** Listings *)

(** X18. [GET /api/users] lists exactly the users that are not deleted,
    each of them once. *)
Theorem get_users_not_deleted (db : DB) :
  (∀ id u, (id, u) ∈ get_users db
           ↔ users db !! id = Some u ∧ User.isDeleted u = false)
  ∧ NoDup (get_users db).*1.
Proof.
  unfold get_users. split.
  - intros id u. rewrite list_elem_of_filter, elem_of_map_to_list. cbn. tauto.
  - apply (NoDup_fmap_fst _).
    + intros i x y Hx Hy.
      apply list_elem_of_filter in Hx as [_ Hx].
      apply list_elem_of_filter in Hy as [_ Hy].
      apply elem_of_map_to_list in Hx. apply elem_of_map_to_list in Hy.
      congruence.
    + apply NoDup_filter, NoDup_map_to_list.
Qed.

Global Instance newer_match_first_trans : Transitive newer_match_first.
Proof. unfold newer_match_first. intros x y z ? ?. lia. Qed.

Global Instance newer_match_first_total : Total newer_match_first.
Proof. unfold newer_match_first. intros x y. lia. Qed.

(** X19. [GET /api/matches] lists every stored match once, and no
    match is listed before one that was created later. *)
Theorem get_matches_newest_first (db : DB) :
  (∀ id m, (id, m) ∈ get_matches db ↔ matches db !! id = Some m)
  ∧ length (get_matches db) = size (matches db)
  ∧ StronglySorted newer_match_first (get_matches db).
Proof.
  unfold get_matches. split; [|split].
  - intros id m. by rewrite merge_sort_Permutation, elem_of_map_to_list.
  - by rewrite merge_sort_Permutation, length_map_to_list.
  - apply StronglySorted_merge_sort; apply _.
Qed.

Global Instance newer_notification_first_trans : Transitive newer_notification_first.
Proof. unfold newer_notification_first. intros x y z ? ?. lia. Qed.

Global Instance newer_notification_first_total : Total newer_notification_first.
Proof. unfold newer_notification_first. intros x y. lia. Qed.

Lemma elem_of_get_notifications uid db n :
  n ∈ get_notifications uid db
  ↔ n ∈ notifications db ∧ Notification.userId n = uid.
Proof.
  unfold get_notifications.
  rewrite merge_sort_Permutation, list_elem_of_filter. tauto.
Qed.

Lemma read_notifications_all_read uid db :
  Forall (λ n, Notification.userId n = uid → Notification.isRead n = true)
    (notifications (read_notifications uid db)).
Proof.
  apply Forall_forall. intros n Hn Hu. cbn in Hn.
  apply list_elem_of_fmap in Hn as (n0 & -> & _).
  case_decide as E; [done|]. cbn in Hu.
  destruct (Notification.isRead n0) eqn:Hr; [done|].
  exfalso. by apply E.
Qed.

(** X20. [GET /api/notifications/:userId] answers with exactly the
    notifications of that user, newest first, and with none of another
    user. *)
Theorem get_notifications_newest_first (uid : string) (db : DB) :
  get_notifications uid db
    ≡ₚ filter (λ n, Notification.userId n = uid) (notifications db)
  ∧ StronglySorted newer_notification_first (get_notifications uid db)
  ∧ Forall (λ n, Notification.userId n = uid) (get_notifications uid db).
Proof.
  unfold get_notifications. split; [apply merge_sort_Permutation|].
  split; [apply StronglySorted_merge_sort; apply _|].
  apply Forall_forall. intros n Hn. rewrite merge_sort_Permutation in Hn.
  by apply list_elem_of_filter in Hn as [? _].
Qed.

(** ** Notifications *)

(** X21. Marking the notifications of a user as read sets [isRead] on
    all of them and changes nothing else: every notification keeps its
    place, user, message and timestamp, the notifications of other users
    keep their flag, and users, matches and ledger are untouched.  Doing
    it again changes nothing. *)
Theorem read_notifications_marks (uid : string) (db : DB) :
  Forall (λ n, Notification.userId n = uid → Notification.isRead n = true)
    (notifications (read_notifications uid db))
  ∧ map envelope (notifications (read_notifications uid db))
    = map envelope (notifications db)
  ∧ (∀ i n, notifications db !! i = Some n → Notification.userId n ≠ uid →
            notifications (read_notifications uid db) !! i = Some n)
  ∧ users (read_notifications uid db) = users db
  ∧ matches (read_notifications uid db) = matches db
  ∧ transactions (read_notifications uid db) = transactions db
  ∧ read_notifications uid (read_notifications uid db) = read_notifications uid db.
Proof.
  split; [apply read_notifications_all_read|].
  unfold read_notifications. cbn. split; [|split].
  - rewrite map_map. apply map_ext. intros n. by case_decide.
  - intros i n Hi Hu. rewrite list_lookup_fmap, Hi. cbn.
    case_decide as E; [by destruct E|done].
  - split; [done|]. split; [done|]. split; [done|].
    unfold with_notifications. cbn. f_equal.
    rewrite map_map. apply map_ext. intros n.
    destruct (decide (Notification.userId n = uid ∧ Notification.isRead n = false))
      as [E|E].
    + rewrite decide_False; [done|]. cbn. by intros [_ ?].
    + by rewrite decide_False.
Qed.

(** X22. An adjustment can be read and acknowledged: after [adjust] on
    an existing account the notifications of the user contain the
    adjustment message, unread; after the read route every notification
    listed for the user is read, and the ledger entry of the adjustment
    is still there. *)
Theorem adjust_notifies (db : DB) (uid : string) (amount : Z)
    (description : string) (u : User.t) :
  users db !! uid = Some u →
  Notification.mk uid (adjust_message amount description) (now db) false
    ∈ get_notifications uid (serve (Adjust uid amount description) db).1
  ∧ Forall (λ n, Notification.isRead n = true)
      (get_notifications uid
         (read_notifications uid (serve (Adjust uid amount description) db).1))
  ∧ transactions
      (read_notifications uid (serve (Adjust uid amount description) db).1)
    = transactions db
      ++ [Transaction.mk uid amount "ADMIN_ADJUST" description (now db)].
Proof.
  intros Hu. rewrite adjust_unfold, Hu. cbn [fst]. split; [|split].
  - apply elem_of_get_notifications. cbn. split; [|done].
    apply elem_of_app. right. apply list_elem_of_here.
  - apply Forall_forall. intros n Hn.
    apply elem_of_get_notifications in Hn as [Hn Hid].
    by apply (proj1 (Forall_forall _ _) (read_notifications_all_read uid _) n Hn).
  - done.
Qed.

Lemma adjust_notifies_witness :
  users db_alpha !! "p1" = Some (player "one")
  ∧ Notification.mk "p1" (adjust_message (-30) "penalty") (now db_alpha) false
    ∈ get_notifications "p1" (serve (Adjust "p1" (-30) "penalty") db_alpha).1.
Proof.
  split; [reflexivity|].
  apply (adjust_notifies db_alpha "p1" (-30) "penalty" (player "one")).
  reflexivity.
Defined.

(** ** Soft deletion *)

Lemma elem_of_get_users db id u :
  (id, u) ∈ get_users db ↔ users db !! id = Some u ∧ User.isDeleted u = false.
Proof.
  unfold get_users. rewrite list_elem_of_filter, elem_of_map_to_list. cbn. tauto.
Qed.

(** X23. A user is deleted by a [PATCH] with [{ isDeleted: true }], and
    the document stays in the store.  From then on the user is not
    listed and is never the answer of a login, the ledger is as it was,
    and the username and the email remain taken: a registration with
    either of them is refused. *)
Theorem soft_delete_hides (db : DB) (id : string) (u : User.t) :
  users db !! id = Some u →
  users (serve (PatchUser id soft_delete) db).1 !! id
  = Some (User.apply_patch soft_delete u)
  ∧ User.isDeleted (User.apply_patch soft_delete u) = true
  ∧ (∀ v, (id, v) ∉ get_users (serve (PatchUser id soft_delete) db).1)
  ∧ (∀ toLowerCase email pin,
       login toLowerCase email pin (serve (PatchUser id soft_delete) db).1
       ≠ mkResponse 200 (JsonUser (Some (User.apply_patch soft_delete u))))
  ∧ transactions (serve (PatchUser id soft_delete) db).1 = transactions db
  ∧ (∀ id' b,
       User.p_username b = Some (User.username u)
       ∨ User.p_email b = Some (User.email u) →
       create_user id' b (serve (PatchUser id soft_delete) db).1
       = ((serve (PatchUser id soft_delete) db).1, identity_conflict)).
Proof.
  intros Hu. rewrite serve_patch_user. cbn [fst].
  assert (users (with_users (alter (User.apply_patch soft_delete) id) db) !! id
          = Some (User.apply_patch soft_delete u)) as Hu'.
  { cbn. by rewrite lookup_alter_eq, Hu. }
  split; [done|]. split; [done|]. split; [|split; [|split; [done|]]].
  - intros v Hv. apply elem_of_get_users in Hv as [Hv Hd].
    rewrite Hu' in Hv. injection Hv as <-. done.
  - intros lower email pin H. unfold login in H.
    destruct (find_one_user _ _) as [v|] eqn:E; [|done].
    destruct (find_one_user_Some _ _ _ E) as (j & _ & _ & _ & Hd).
    destruct (User.isBlocked v); [done|]. injection H as ->. done.
  - intros id' b Hb.
    destruct (create_user_cases id' b
                (with_users (alter (User.apply_patch soft_delete) id) db))
      as [E|(v & Hv & _ & Hn & He & _)]; [done|].
    exfalso. apply user_of_body_Some in Hv as (Bn & Be & _).
    destruct Hb as [Hb|Hb].
    + apply Hn. exists id, (User.apply_patch soft_delete u).
      split; [done|]. cbn. congruence.
    + apply He. exists id, (User.apply_patch soft_delete u).
      split; [done|]. cbn. congruence.
Qed.

Lemma soft_delete_hides_witness :
  users db_users !! "u1"
  = Some (User.mk "Ghost" "ghost@grid" "1234" "PLAYER" 0 false false false 0 0)
  ∧ ∀ v, ("u1", v) ∉ get_users (serve (PatchUser "u1" soft_delete) db_users).1.
Proof.
  split; [reflexivity|].
  apply (soft_delete_hides db_users "u1"
           (User.mk "Ghost" "ghost@grid" "1234" "PLAYER" 0 false false false 0 0)).
  reflexivity.
Defined.

(** ** Payment marking and settlement are independent *)

Lemma serve_settle_effect id w db :
  (serve (Settle id w) db).1 = settle_effect id w db.
Proof.
  unfold settle_effect. destruct (matches db !! id) as [m|] eqn:Hm.
  - case_decide as Hs.
    + by rewrite (serve_settle_settled _ _ m).
    + by rewrite (serve_settle_ok _ _ m).
  - by rewrite serve_settle_absent.
Qed.

Lemma serve_pay_effect id uid db :
  (serve (Pay id uid) db).1 = pay_effect id uid db.
Proof.
  unfold pay_effect. destruct (matches db !! id) as [m|] eqn:Hm.
  - case_decide as Hf.
    + by rewrite (serve_pay_ok _ _ m).
    + rewrite (serve_pay_not_found _ _ m); [done|done| |].
      * destruct (find_player uid (Match.teamA m)) eqn:E; [|done].
        exfalso. apply Hf. left. by eexists.
      * destruct (find_player uid (Match.teamB m)) eqn:E; [|done].
        exfalso. apply Hf. right. by eexists.
  - by rewrite serve_pay_absent.
Qed.

Lemma map_alter_set_paid {B} (g : Player.t → B) i (l : list Player.t) :
  (∀ p, g (Player.set_paid p) = g p) →
  map g (alter Player.set_paid i l) = map g l.
Proof.
  intros Hg. revert i. induction l as [|x l IH]; intros [|i]; cbn; [done..| |].
  - by rewrite Hg.
  - by rewrite IH.
Qed.

Lemma movements_set_paid ia ib w m :
  movements w (Match.set_paid ia ib m) = movements w m.
Proof.
  unfold movements, winners_of, losers_of. cbn.
  assert (∀ (B : Type) (g : Player.t → B) (o : option nat) l,
            (∀ p, g (Player.set_paid p) = g p) →
            map g (from_option (λ i, alter Player.set_paid i l) l o) = map g l) as H.
  { intros B g [i|] l Hg; cbn; [by apply map_alter_set_paid | done]. }
  case_decide; by rewrite !H.
Qed.

Lemma db_eq (a b : DB) :
  users a = users b → matches a = matches b →
  transactions a = transactions b → notifications a = notifications b →
  now a = now b → a = b.
Proof. destruct a, b. cbn. by intros -> -> -> -> ->. Qed.

Lemma pay_effect_fields id uid db :
  transactions (pay_effect id uid db) = transactions db
  ∧ notifications (pay_effect id uid db) = notifications db
  ∧ now (pay_effect id uid db) = now db.
Proof.
  unfold pay_effect. destruct (matches db !! id); [|done]. by case_decide.
Qed.

(** How [pay] sees a match [settle] may have touched, and conversely. *)
Lemma pay_effect_matches id uid db j :
  matches (pay_effect id uid db) !! j
  = match matches db !! j with
    | Some m =>
        if decide (j = id) then
          Some (Match.set_paid (paid_index uid (Match.teamA m))
                               (paid_index uid (Match.teamB m)) m)
        else Some m
    | None => None
    end.
Proof.
  unfold pay_effect, paid_index.
  destruct (decide (j = id)) as [->|Hne].
  - destruct (matches db !! id) as [m|] eqn:Hm; [|by rewrite Hm].
    case_decide as Hf.
    + cbn. by rewrite lookup_alter_eq, Hm.
    + rewrite Hm. f_equal.
      destruct (find_player uid (Match.teamA m)) eqn:Ea;
        [exfalso; apply Hf; left; by eexists|].
      destruct (find_player uid (Match.teamB m)) eqn:Eb;
        [exfalso; apply Hf; right; by eexists|].
      by destruct m.
  - destruct (matches db !! id) as [m|] eqn:Hm;
      [|by destruct (matches db !! j)].
    case_decide as Hf; [|by destruct (matches db !! j)].
    cbn. rewrite lookup_alter_ne by done. by destruct (matches db !! j).
Qed.

Lemma settle_effect_matches id w db j :
  matches (settle_effect id w db) !! j
  = match matches db !! j with
    | Some m =>
        if decide (j = id ∧ Match.status m ≠ "SETTLED")
        then Some (Match.set_settled w m) else Some m
    | None => None
    end.
Proof.
  unfold settle_effect.
  destruct (decide (j = id)) as [->|Hne].
  - destruct (matches db !! id) as [m|] eqn:Hm; [|by rewrite Hm].
    destruct (decide (Match.status m = "SETTLED")) as [Hs|Hs].
    + rewrite Hm. rewrite decide_False; [done|]. by intros [_ ?].
    + rewrite settled_db_match by done. by rewrite decide_True.
  - destruct (matches db !! id) as [m|] eqn:Hm.
    + case_decide as Hs.
      * destruct (matches db !! j); [|done].
        rewrite decide_False; [done|]. by intros [? _].
      * unfold settled_db. rewrite apply_movements_matches. cbn.
        rewrite lookup_alter_ne by done.
        destruct (matches db !! j); [|done].
        rewrite decide_False; [done|]. by intros [? _].
    + destruct (matches db !! j); [|done].
      rewrite decide_False; [done|]. by intros [? _].
Qed.

Lemma pay_effect_users id uid db u :
  users (pay_effect id uid db) !! u
  = (if pays id uid db && bool_decide (u = uid)
     then User.inc_totalMatchesPaid 1 else Datatypes.id) <$> users db !! u.
Proof.
  unfold pay_effect, pays. destruct (matches db !! id) as [m|].
  - case_decide as Hf.
    + rewrite bool_decide_eq_true_2 by done. cbn.
      rewrite lookup_alter. case_decide as E.
      * subst u. by rewrite bool_decide_eq_true_2.
      * rewrite bool_decide_eq_false_2 by congruence.
        by destruct (users db !! u).
    + rewrite bool_decide_eq_false_2 by done. cbn. by destruct (users db !! u).
  - cbn. by destruct (users db !! u).
Qed.

Lemma settle_effect_users id w db u :
  users (settle_effect id w db) !! u
  = User.inc_balance (net_movement u (pending_movements id w db)) <$> users db !! u.
Proof.
  assert (users db !! u = User.inc_balance (net_movement u []) <$> users db !! u) as H0.
  { cbn. destruct (users db !! u); cbn; [|done]. by rewrite inc_balance_0. }
  unfold settle_effect, pending_movements. destruct (matches db !! id) as [m|]; [|done].
  case_decide; [done|]. unfold settled_db. by rewrite apply_movements_users.
Qed.

Lemma settle_effect_fields id w db :
  transactions (settle_effect id w db)
  = transactions db ++ map (ledger_entry (now db)) (pending_movements id w db)
  ∧ notifications (settle_effect id w db) = notifications db
  ∧ now (settle_effect id w db) = now db.
Proof.
  unfold settle_effect, pending_movements. destruct (matches db !! id) as [m|].
  - case_decide; [by rewrite app_nil_r|]. unfold settled_db.
    by rewrite apply_movements_transactions, apply_movements_notifications,
      apply_movements_now.
  - by rewrite app_nil_r.
Qed.

Lemma pays_settle_effect id' uid id w db :
  pays id' uid (settle_effect id w db) = pays id' uid db.
Proof.
  unfold pays. rewrite settle_effect_matches.
  destruct (matches db !! id') as [m|]; [|done]. by case_decide.
Qed.

Lemma pending_movements_pay_effect id w id' uid db :
  pending_movements id w (pay_effect id' uid db) = pending_movements id w db.
Proof.
  unfold pending_movements. rewrite pay_effect_matches.
  destruct (matches db !! id) as [m|]; [|done].
  case_decide; [|done]. cbn. case_decide; [done|]. apply movements_set_paid.
Qed.

Lemma pay_not_found_cases id uid db :
  (pays id uid db = true ∧ (serve (Pay id uid) db).2.(code) = 200)
  ∨ (pays id uid db = false ∧ (serve (Pay id uid) db).2.(code) = 404).
Proof.
  unfold pays. destruct (matches db !! id) as [m|] eqn:Hm.
  - case_bool_decide as Hf.
    + left. by rewrite (serve_pay_ok _ _ m).
    + right. rewrite (serve_pay_not_found _ _ m); [done|done| |].
      * destruct (find_player uid (Match.teamA m)) eqn:E; [|done].
        exfalso. apply Hf. left. by eexists.
      * destruct (find_player uid (Match.teamB m)) eqn:E; [|done].
        exfalso. apply Hf. right. by eexists.
  - right. by rewrite serve_pay_absent.
Qed.

(** X24. Payment marking and settlement do not depend on each other:
    whichever of [pay] and [settle] is served first, on the same or on
    different matches, both give the same answer codes and the store
    ends the same.  In particular a player can be marked paid after the
    match is SETTLED. *)
Theorem pay_settle_independent (db : DB) (id id' uid : string)
    (w : option string) :
  (serve (Settle id w) (serve (Pay id' uid) db).1).1
  = (serve (Pay id' uid) (serve (Settle id w) db).1).1
  ∧ (serve (Settle id w) (serve (Pay id' uid) db).1).2.(code)
    = (serve (Settle id w) db).2.(code)
  ∧ (serve (Pay id' uid) (serve (Settle id w) db).1).2.(code)
    = (serve (Pay id' uid) db).2.(code).
Proof.
  split; [|split].
  - rewrite !serve_settle_effect, !serve_pay_effect.
    destruct (settle_effect_fields id w (pay_effect id' uid db)) as (T1 & N1 & C1).
    destruct (settle_effect_fields id w db) as (T2 & N2 & C2).
    destruct (pay_effect_fields id' uid db) as (T3 & N3 & C3).
    destruct (pay_effect_fields id' uid (settle_effect id w db)) as (T4 & N4 & C4).
    apply db_eq.
    + apply map_eq. intros u.
      rewrite settle_effect_users, pay_effect_users, pay_effect_users,
        settle_effect_users, pays_settle_effect, pending_movements_pay_effect.
      destruct (users db !! u) as [x|]; cbn; [|done].
      by destruct (pays id' uid db && bool_decide (u = uid)).
    + apply map_eq. intros j.
      rewrite settle_effect_matches, pay_effect_matches, pay_effect_matches,
        settle_effect_matches.
      destruct (matches db !! j) as [m|]; [|done].
      destruct (decide (j = id')) as [Hj|Hj]; cbn;
        destruct (decide (j = id ∧ Match.status m ≠ "SETTLED")) as [Hs|Hs];
        cbn; rewrite ?decide_True, ?decide_False by done; done.
    + rewrite T1, T4, T3, T2, C3, pending_movements_pay_effect. done.
    + congruence.
    + congruence.
  - rewrite serve_pay_effect.
    destruct (matches (pay_effect id' uid db) !! id) as [m1|] eqn:E1;
      destruct (matches db !! id) as [m|] eqn:E.
    + destruct (decide (Match.status m1 = "SETTLED")) as [S1|S1];
        destruct (decide (Match.status m = "SETTLED")) as [S|S].
      * by rewrite (serve_settle_settled _ _ m1), (serve_settle_settled _ _ m).
      * rewrite pay_effect_matches, E in E1.
        destruct (decide (id = id')); injection E1 as <-; cbn in *; done.
      * rewrite pay_effect_matches, E in E1.
        destruct (decide (id = id')); injection E1 as <-; cbn in *; done.
      * by rewrite (serve_settle_ok _ _ m1), (serve_settle_ok _ _ m).
    + rewrite pay_effect_matches, E in E1. done.
    + rewrite pay_effect_matches, E in E1. by destruct (decide (id = id')).
    + by rewrite !serve_settle_absent.
  - rewrite serve_settle_effect.
    destruct (pay_not_found_cases id' uid (settle_effect id w db)) as [[H1 E1]|[H1 E1]];
      destruct (pay_not_found_cases id' uid db) as [[H2 E2]|[H2 E2]];
      rewrite E1, E2; try done.
    + by rewrite pays_settle_effect, H2 in H1.
    + by rewrite pays_settle_effect, H2 in H1.
Qed.

(** ** Creating a match, and who is notified *)



(** * The routes on every string *)

(** ** The settle route *)

Lemma route_loops_perform name ws ls k :
  route_pay_winners name ws (route_charge_losers name ls k)
  = route_perform (map (win_of name) ws ++ map (loss_of name) ls) k.
Proof.
  induction ws as [|p ws IH]; cbn.
  - induction ls as [|p ls IH]; cbn; [done|]. by rewrite IH.
  - by rewrite IH.
Qed.

Lemma run_vis {R X} (op : Op X) (k : X → Prog R) db :
  run (Vis op k) db = run (k (exec_op op db).2) (exec_op op db).1.
Proof. cbn. by destruct (exec_op op db). Qed.

Lemma all_cast_prefix movs : all_cast movs = true → cast_prefix movs = movs.
Proof.
  induction movs as [|mv movs IH]; cbn; [done|].
  destruct (object_id (mv_userId mv)); cbn; [|done]. intros H. by rewrite IH.
Qed.

Lemma run_route_perform movs r db :
  run (route_perform movs (Ret r)) db
  = (apply_movements (cast_prefix movs) db, if all_cast movs then r else unhandled).
Proof.
  revert db. induction movs as [|mv movs IH]; intros db; [done|].
  cbn [route_perform cast_prefix all_cast forallb].
  destruct (object_id (mv_userId mv)) eqn:E; [|done].
  rewrite run_vis, findByIdAndUpdate_db, run_vis. cbn [exec_op fst snd andb].
  by rewrite IH.
Qed.

Lemma all_cast_movements w m :
  all_cast (movements w m) = true ↔ roster_ids_cast m.
Proof.
  unfold all_cast, roster_ids_cast, movements, winners_of, losers_of.
  rewrite forallb_forall, Forall_forall.
  split.
  - intros H p Hp. apply elem_of_app in Hp.
    case_decide.
    + destruct Hp as [Hp|Hp].
      * apply (H (win_of (Match.name m) p)), in_app_iff. left.
        apply in_map. by apply list_elem_of_In.
      * apply (H (loss_of (Match.name m) p)), in_app_iff. right.
        apply in_map. by apply list_elem_of_In.
    + destruct Hp as [Hp|Hp].
      * apply (H (loss_of (Match.name m) p)), in_app_iff. right.
        apply in_map. by apply list_elem_of_In.
      * apply (H (win_of (Match.name m) p)), in_app_iff. left.
        apply in_map. by apply list_elem_of_In.
  - intros H mv Hmv. apply in_app_iff in Hmv.
    case_decide; destruct Hmv as [Hmv|Hmv];
      apply in_map_iff in Hmv as (p & <- & Hp); apply list_elem_of_In in Hp;
      cbn; apply H, elem_of_app; tauto.
Qed.

(** The settle route, run to its end. *)
Lemma run_route_settle id w db :
  run (route_settle id w) db
  = if object_id id then
      match matches db !! id with
      | None => (db, mkResponse 400 NoBody)
      | Some m =>
          if decide (Match.status m = "SETTLED") then (db, mkResponse 400 NoBody)
          else (apply_movements (cast_prefix (movements w m))
                  (with_matches (alter (Match.set_settled w) id) db),
                if all_cast (movements w m)
                then mkResponse 200 (JsonMatch (Match.set_settled w m))
                else unhandled)
      end
    else (db, unhandled).
Proof.
  unfold route_settle. destruct (object_id id); [|done]. cbn.
  destruct (matches db !! id) as [m|]; [|done].
  case_decide; [done|]. cbn.
  by rewrite route_loops_perform, run_route_perform.
Qed.

(** On ids that are cast the route is the handler. *)
Lemma run_route_settle_cast id w m db :
  object_id id = true → matches db !! id = Some m →
  Match.status m ≠ "SETTLED" → roster_ids_cast m →
  run (route_settle id w) db
  = (settled_db id w m db, mkResponse 200 (JsonMatch (Match.set_settled w m))).
Proof.
  intros Hid Hm Hs Hr. rewrite run_route_settle, Hid, Hm.
  rewrite decide_False by done.
  apply (all_cast_movements w) in Hr. by rewrite Hr, all_cast_prefix.
Qed.













(** ** The adjust route *)




(** The third scenario of the specification. *)
Example adjust_penalty :
  let r := run (route_adjust pretty one_id (-30) "penalty") db_grid in
  User.balance <$> users r.1 !! one_id = Some (-30)
  ∧ map entry (transactions r.1) = [(one_id, -30, "ADMIN_ADJUST", "penalty")]
  ∧ map Notification.message (notifications r.1)
    = ["System Adjustment: -30 credits (penalty)"].
Proof. vm_compute. repeat split; reflexivity. Qed.


(** ** The pay route *)


(** ** Conservation, account by account *)







(** ** The answers of the settle route *)


(** X4. A settlement is not zero-sum by construction.  When the id and
    the roster user ids are ObjectIds, the amounts it adds to the ledger
    sum to the total stakes of the winning roster minus the total stakes
    of the losing roster (teamA minus teamB for [winningTeam] "A", teamB
    minus teamA for anything else), whatever the two totals are. *)
Theorem settle_ledger_total (db : DB) (id : string) (w : option string)
    (m : Match.t) :
  object_id id = true →
  matches db !! id = Some m →
  Match.status m ≠ "SETTLED" →
  roster_ids_cast m →
  ledger_total (transactions (run (route_settle id w) db).1)
  = ledger_total (transactions db)
    + (if decide (w = Some "A")
       then roster_total (Match.teamA m) - roster_total (Match.teamB m)
       else roster_total (Match.teamB m) - roster_total (Match.teamA m)).
Proof.
  intros Hid Hm Hs Hr. rewrite (run_route_settle_cast id w m) by done. cbn [fst].
  destruct (settled_db_paid_out id w m db Hm) as (_ & -> & _).
  rewrite !ledger_total_app, ledger_total_wins, ledger_total_losses.
  unfold winners_of, losers_of. case_decide; lia.
Qed.

Lemma settle_ledger_total_witness :
  object_id uneven_id = true
  ∧ matches db_uneven !! uneven_id = Some uneven
  ∧ Match.status uneven ≠ "SETTLED"
  ∧ roster_ids_cast uneven
  ∧ ledger_total (transactions (run (route_settle uneven_id (Some "A")) db_uneven).1)
    = 50.
Proof.
  assert (roster_ids_cast uneven) as H.
  { unfold roster_ids_cast. by repeat constructor. }
  split; [reflexivity|]. split; [reflexivity|]. split; [discriminate|].
  split; [exact H|].
  apply (settle_ledger_total db_uneven uneven_id (Some "A") uneven);
    [reflexivity | reflexivity | discriminate | exact H].
Defined.

(** ** The answers of the pay route *)





(** ** The answers of the user update route *)




(** ** The answers of the login route *)

(** X12. [POST /api/login] with a pin that is a string.
    - No answer is sent exactly when the body has no string as [email].
    - It answers 401 exactly when the body has an email and no stored
      user that is not deleted has the lower-cased email together with
      the pin.
    - A 200 answer carries a stored user with the lower-cased email and
      the pin who is neither deleted nor blocked.
    - A 403 answer, "Operative blocked by High Command.", means that such
      a user exists and is blocked.
    - There is no other outcome. *)
Theorem login_outcome (toLowerCase : string → string) (email : option string)
    (pin : string) (db : DB) :
  let r := route_login toLowerCase email pin db in
  (r = unhandled ↔ email = None)
  ∧ (r.(code) = 401
     ↔ ∃ e, email = Some e
            ∧ ∀ id u, users db !! id = Some u →
                ¬ (User.email u = toLowerCase e ∧ User.pin u = pin
                   ∧ User.isDeleted u = false))
  ∧ (r.(code) = 200 →
     ∃ e id u, email = Some e ∧ users db !! id = Some u
               ∧ User.email u = toLowerCase e ∧ User.pin u = pin
               ∧ User.isDeleted u = false ∧ User.isBlocked u = false
               ∧ r = mkResponse 200 (JsonUser (Some u)))
  ∧ (r.(code) = 403 →
     ∃ e id u, email = Some e ∧ users db !! id = Some u
               ∧ User.email u = toLowerCase e ∧ User.pin u = pin
               ∧ User.isDeleted u = false ∧ User.isBlocked u = true
               ∧ r = mkResponse 403 (JsonMessage "Operative blocked by High Command."))
  ∧ (r.(code) = 200 ∨ r.(code) = 401 ∨ r.(code) = 403 ∨ r = unhandled).
Proof.
  cbn zeta. destruct email as [e|]; cbn [route_login].
  2:{ split; [done|]. split; [split; [done | by intros (e & ? & _)]|].
      split; [done|]. split; [done|]. by right; right; right. }
  unfold login.
  destruct (find_one_user _ (users db)) as [u|] eqn:E.
  - destruct (find_one_user_Some _ _ _ E) as (id & Hu & Hc & Hp & Hd).
    destruct (User.isBlocked u) eqn:Hb; cbn.
    + split; [done|]. split; [|split; [done|split; [|by right; right; left]]].
      * split; [done|]. intros (e' & [= <-] & H). by destruct (H id u Hu).
      * intros _. by exists e, id, u.
    + split; [done|]. split; [|split; [|split; [done|by left]]].
      * split; [done|]. intros (e' & [= <-] & H). by destruct (H id u Hu).
      * intros _. by exists e, id, u.
  - cbn. split; [done|]. split; [|split; [done|split; [done|by right; left]]].
    split; [|done]. intros _. exists e. split; [done|].
    by apply (proj1 (find_one_user_None (credentials (toLowerCase e) pin) (users db))).
Qed.

(** ** Adjustments in flight together *)









(** ** From creation to settlement *)



(** ** The routes and the handlers agree on ids that are cast *)

Lemma run_route_adjust_cast userId amount description db :
  object_id userId = true →
  run (route_adjust pretty userId amount description) db
  = run (adjust userId amount description) db.
Proof. intros H. unfold route_adjust. by rewrite H. Qed.

Lemma run_route_pay_cast id userId db :
  object_id id = true → object_id userId = true →
  run (route_pay id userId) db = run (pay id userId) db.
Proof. intros Hid Hu. unfold route_pay. by rewrite Hid, Hu. Qed.

Lemma route_patch_user_cast id b db :
  object_id id = true →
  ¬ (collides User.username (User.p_username b) id (users db)
     ∨ collides User.email (User.p_email b) id (users db)) →
  route_patch_user id b db = serve (PatchUser id b) db.
Proof.
  intros Hid Hc. unfold route_patch_user. rewrite Hid.
  unfold serve, handler, patch_user. cbn.
  destruct (users db !! id) as [u|]; [|done]. by rewrite decide_False.
Qed.

(** ** The outcomes at the store of the examples *)




Lemma login_outcome_witness :
  route_login ascii_lower None "0000" db_users = unhandled.
Proof.
  destruct (login_outcome ascii_lower None "0000" db_users) as ([_ H] & _).
  apply H. reflexivity.
Defined.
